(** * pychebfun: Chebyshev interpolants ("Funs") on an interval

    A shallow embedding of [pychebfun/chebfun.py].

    - Numbers are binary64 (Rocq's primitive floats, which compute the IEEE
      754 operations numpy uses for [+ - * /], [abs] and the comparisons).
    - Arrays are lists; Funs are real and scalar-valued, so [values] is a
      list of numbers and a domain is the pair of its two endpoints.
    - A function to sample is a function on numbers, applied to an array
      entry by entry.
    - Python exceptions are the error branch of a result type; indexing
      outside an array raises [IndexError] as in numpy.
    - The routines the module imports from numpy and scipy (the cosine, the
      FFT pair, the Chebyshev antiderivative and the barycentric evaluator)
      are the fields of a class, [Extern]; the eigenvalue solver and the
      power function are arguments of the two methods that use them.
      [Reference] gives executable versions to run the methods on concrete
      inputs. *)

From Stdlib Require Import List Arith ZArith Lia Bool PrimFloat.
Import ListNotations.

Set Implicit Arguments.

(** ** Python exceptions and the error monad *)

Definition interval : Type := (float * float)%type.

Inductive exn : Type :=
| NoConvergence (last : list float) (bnd : float)
| DomainMismatch (d1 d2 : interval)
| ValueError (args : list float)
| IndexError
| UnboundLocalError
| OverflowError
| RecursionError.

Inductive result (A : Type) : Type :=
| Ok (a : A)
| Raise (e : exn).

Arguments Ok {A} a.
Arguments Raise {A} e.

Definition bind {A B} (c : result A) (k : A -> result B) : result B :=
  match c with
  | Ok a => k a
  | Raise e => Raise e
  end.

Declare Scope py_scope.
Delimit Scope py_scope with py.
Notation "x <- c ;; k" := (bind c (fun x => k))
  (at level 61, c at next level, right associativity) : py_scope.
Local Open Scope py_scope.

(** ** Numbers *)

Local Open Scope float_scope.

(** [sys.float_info.epsilon], that is 2^-52. *)
Definition emach : float := 0x1p-52.

(** [np.pi]. *)
Definition np_pi : float := 0x1.921fb54442d18p+1.

(** A Python [int] used as a float operand; exact below 2^53. *)
Fixpoint float_of_nat (n : nat) : float :=
  match n with
  | O => 0
  | S m => float_of_nat m + 1
  end.

(** Complex numbers as numpy stores them: a pair of binary64 numbers. *)
Record complex : Type := Cplx { re : float; im : float }.

(** A complex number divided, or multiplied, by a real scalar. *)
Definition cdiv (z : complex) (r : float) : complex :=
  Cplx (re z / r) (im z / r).

Definition cscale (r : float) (z : complex) : complex :=
  Cplx (r * re z) (r * im z).

(** ** numpy arrays as lists *)

Definition matrix : Type := list (list float).

Module Np.

(** Python's index normalisation: a negative index counts from the end,
    an index outside the array raises [IndexError]. *)
Definition index (len : nat) (i : Z) : result nat :=
  let j := (if i <? 0 then i + Z.of_nat len else i)%Z in
  if ((0 <=? j) && (j <? Z.of_nat len))%Z then Ok (Z.to_nat j)
  else Raise IndexError.

Fixpoint update {A} (f : A -> A) (i : nat) (l : list A) : list A :=
  match l, i with
  | [], _ => []
  | x :: t, O => f x :: t
  | x :: t, S j => x :: update f j t
  end.

(** [l[i] = v] *)
Definition setitem {A} (l : list A) (i : Z) (v : A) : result (list A) :=
  j <- index (length l) i ;; Ok (update (fun _ => v) j l).

(** [l[i] op= ...] *)
Definition moditem {A} (l : list A) (i : Z) (f : A -> A) : result (list A) :=
  j <- index (length l) i ;; Ok (update f j l).

(** [l[i]] *)
Definition getitem {A} (l : list A) (i : Z) (d : A) : result A :=
  j <- index (length l) i ;; Ok (nth j l d).

(** [l[1::2] = v] *)
Fixpoint set_odd {A} (v : A) (l : list A) : list A :=
  match l with
  | x :: _ :: t => x :: v :: set_odd v t
  | _ => l
  end.

(** [l[-2:]] *)
Definition last_two {A} (l : list A) : list A :=
  skipn (length l - 2)%nat l.

(** [l[-2:0:-1]]: the entries strictly between the first and the last,
    in reverse order. *)
Definition inner_reversed {A} (l : list A) : list A :=
  rev (tl (removelast l)).

Definition ones (n : nat) : list float := repeat 1 n.
Definition zeros (n : nat) : list float := repeat 0 n.

(** [np.maximum] on two numbers: a NaN operand is returned. *)
Definition maximum (x y : float) : float :=
  if is_nan x then x else if is_nan y then y
  else if x <? y then y else x.

(** [np.max]: raises [ValueError] on an empty array. *)
Definition max (l : list float) : result float :=
  match l with
  | [] => Raise (ValueError [])
  | x :: t => Ok (fold_left maximum t x)
  end.

(** One entry of [np.allclose]: infinite entries must be equal, the others
    satisfy [|x - y| <= atol + rtol * |y|]. *)
Definition isclose (rtol atol x y : float) : bool :=
  if is_infinity x || is_infinity y then x =? y
  else abs (x - y) <=? atol + rtol * abs y.

(** [np.sort] on floats (insertion sort; NaN sorts last). *)
Definition sort_le (x y : float) : bool :=
  if is_nan y then true else if is_nan x then false else x <=? y.

Fixpoint insert (x : float) (l : list float) : list float :=
  match l with
  | [] => [x]
  | y :: t => if sort_le x y then x :: l else y :: insert x t
  end.

Definition sort (l : list float) : list float :=
  fold_right insert [] l.

(** [np.nonzero] on a boolean array: the indices of the true entries. *)
Fixpoint nonzero_from (i : nat) (l : list bool) : list nat :=
  match l with
  | [] => []
  | b :: t => if b then i :: nonzero_from (S i) t else nonzero_from (S i) t
  end.

Definition nonzero (l : list bool) : list nat := nonzero_from 0 l.


(** [padded[:len(small)] = small]: the prefix is overwritten; a longer
    right-hand side does not fit (a single value is broadcast). *)
Definition set_prefix {A} (padded small : list A) : result (list A) :=
  if (length small <=? length padded)%nat
  then Ok (small ++ skipn (length small) padded)
  else if (length small =? 1)%nat then Ok padded
  else Raise (ValueError []).

(** Entrywise combination of two arrays of one shape. *)
Fixpoint map2 {A B C} (f : A -> B -> C) (l : list A) (m : list B) : list C :=
  match l, m with
  | x :: l', y :: m' => f x y :: map2 f l' m'
  | _, _ => []
  end.

(** [linalg.toeplitz(v)] for a real [v]: entry (i, j) is [v[|i - j|]]. *)
Definition toeplitz (v : list float) : matrix :=
  let m := length v in
  map (fun i =>
         map (fun j => nth (if (i <=? j)%nat then (j - i)%nat else (i - j)%nat) v 0)
             (seq 0 m))
      (seq 0 m).

Definition zeros_like (C : matrix) : matrix :=
  map (map (fun _ => 0)) C.

(** [C[i, j] = v] *)
Definition setitem2 (C : matrix) (i j : Z) (v : float) : result matrix :=
  r <- index (length C) i ;;
  row <- setitem (nth r C []) j v ;;
  Ok (update (fun _ => row) r C).

(** [C[i, :] = row] *)
Definition setrow (C : matrix) (i : Z) (row : list float) : result matrix :=
  r <- index (length C) i ;;
  if (length row =? length (nth r C []))%nat
  then Ok (update (fun _ => row) r C)
  else Raise (ValueError []).

End Np.

(** ** The barycentric interpolator object

    The fields the module sets on scipy's [BarycentricInterpolator]: the
    weights [wi], the nodes [xi], the values [yi] and the node count [n]
    (which [set_yi] takes from the values). *)
Module Bary.
Record t : Type := Make {
  wi : list float;
  xi : list float;
  yi : list float;
  n : nat
}.
End Bary.

(** ** The numpy and scipy routines the module calls *)

Class Extern : Type := {
  (** [np.cos] *)
  np_cos : float -> float;
  (** [fftpack.fft(data, axis=0)] and [fftpack.ifft(data, axis=0)] on a
      real array *)
  fft : list float -> result (list complex);
  ifft : list float -> result (list complex);
  (** [poly.chebyshev.chebint] *)
  chebint : list float -> list float;
  (** [BarycentricInterpolator.__call__] at one point *)
  bary_call : Bary.t -> float -> float
}.

(** Both transforms return as many outputs as they are given inputs, and
    the antiderivative of a series has at least one coefficient. *)
Class ExternLaws (E : Extern) : Prop := {
  fft_length : forall l, l <> [] ->
    exists c, fft l = Ok c /\ length c = length l;
  ifft_length : forall l, l <> [] ->
    exists c, ifft l = Ok c /\ length c = length l;
  chebint_nonempty : forall c, c <> [] -> chebint c <> []
}.

(** ** The Fun object *)

Record Fun : Type := MkFun {
  _values : list float;
  _vscale : float;
  p : Bary.t;
  _domain : interval
}.

(** What a binary operator receives on its right: a scalar or a Fun. *)
Inductive operand : Type :=
| Scalar (c : float)
| AFun (f : Fun).

Definition default_domain : interval := (-1, 1).

Section Methods.

Context {E : Extern}.

(** *** Interpolation and evaluation *)

Definition interpolation_points (N : nat) : list float :=
  if (N =? 1)%nat then [0]
  else map (fun k => np_cos (float_of_nat k * np_pi / float_of_nat (N - 1)%nat))
           (seq 0 N).

Definition sample_function (f : float -> float) (N : nat) : list float :=
  let x := interpolation_points (N + 1)%nat in
  map f x.

Definition even_data (data : list float) : list float :=
  data ++ Np.inner_reversed data.

Definition dct (data : list float) : result (list float) :=
  let N := (length data / 2)%nat in
  spectrum <- fft data ;;
  let fftdata := firstn (N + 1)%nat spectrum in
  let fftdata := map (fun z => cdiv z (float_of_nat N)) fftdata in
  fftdata <- Np.moditem fftdata 0 (fun z => cdiv z 2) ;;
  fftdata <- Np.moditem fftdata (-1) (fun z => cdiv z 2) ;;
  Ok (map re fftdata).

Definition chebpolyfit (sampled : list float) : result (list float) :=
  if (length sampled =? 1)%nat then Ok sampled
  else
    let evened := even_data sampled in
    dct evened.

Definition chebpolyval (chebcoeff : list float) : result (list float) :=
  let N := length chebcoeff in
  if (N =? 1)%nat then Ok chebcoeff
  else
    let data := map (fun c => c / 2) (even_data chebcoeff) in
    data <- Np.moditem data 0 (fun c => c * 2) ;;
    data <- Np.moditem data (Z.of_nat N - 1)%Z (fun c => c * 2) ;;
    spectrum <- ifft data ;;
    let fftdata := map (cscale (float_of_nat (2 * (N - 1))%nat)) spectrum in
    let complex_values := firstn N fftdata in
    Ok (map re complex_values).

(** The weights are computed in advance and stored on the interpolator. *)
Definition interpolator (x values : list float) : result Bary.t :=
  let N := length values in
  let weights := Np.ones N in
  weights <- Np.setitem weights 0 0.5 ;;
  let weights := Np.set_odd (-1) weights in
  weights <- Np.moditem weights (-1) (fun w => w * 0.5) ;;
  Ok (Bary.Make weights x values N).

(** *** Construction *)

(** [Fun.__init__] *)
Definition init (values : list float) (domain : interval)
           (vscale : option float) : result Fun :=
  let N := length values in
  let points := interpolation_points N in
  vs <- match vscale with
        | Some v => Ok v
        | None => Np.max (map abs values)
        end ;;
  p <- interpolator points values ;;
  Ok (MkFun values vs p domain).

Definition from_data (data : list float) (domain : interval) : result Fun :=
  init data domain None.

Definition _ab_to_ui (self : Fun) (x : float) : float :=
  let '(a, b) := _domain self in
  (2 * x - a - b) / (b - a).

Definition _ui_to_ab (self : Fun) (t : float) : float :=
  let '(a, b) := _domain self in
  0.5 * (b - a) * t + 0.5 * (a + b).

Definition values (self : Fun) : list float := _values self.
Definition domain (self : Fun) : interval := _domain self.
Definition size (self : Fun) : nat := Bary.n (p self).

Definition chebyshev_coefficients (self : Fun) : result (list float) :=
  chebpolyfit (values self).

(** [Fun.__call__] *)
Definition call (self : Fun) (x : float) : float :=
  bary_call (p self) (_ab_to_ui self x).

(** *** Pruning *)

Definition _threshold (vscale : float) : float :=
  let bnd := 128 * emach * vscale in
  bnd.

Definition _cutoff (coeffs : list float) (vscale : float) : nat :=
  let bnd := _threshold vscale in
  let inds := Np.nonzero (map (fun c => bnd <=? abs c) coeffs) in
  let N := match inds with
           | [] => 0%nat
           | _ => last inds 0%nat
           end in
  (N + 1)%nat.

(** The coefficients [from_chebcoeff] keeps. *)
Definition pruned_coeffs (coeffs : list float) (prune : bool)
           (vscale : float) : list float :=
  if prune then
    let N := _cutoff coeffs vscale in
    firstn N coeffs
  else coeffs.

Definition from_chebcoeff (chebcoeff : list float) (domain : interval)
           (prune : bool) (vscale : float) : result Fun :=
  let coeffs := chebcoeff in
  values <- chebpolyval (pruned_coeffs coeffs prune vscale) ;;
  init values domain (Some vscale).

(** *** The adaptive sampler *)

(** What one pass of the loop leaves in [coeffs], [bnd] and [last]. *)
Record attempt : Type := MkAttempt {
  att_coeffs : list float;
  att_bnd : float;
  att_last : list float
}.

(** The body of the loop for one [k], up to the test. *)
Definition dichotomy_step (f : float -> float) (k : nat) : result attempt :=
  let N := (2 ^ k)%nat in
  let sampled := sample_function f N in
  coeffs <- chebpolyfit sampled ;;
  m <- Np.max (map abs coeffs) ;;
  let bnd := _threshold m in
  let last := map abs (Np.last_two coeffs) in
  Ok (MkAttempt coeffs bnd last).

(** [np.all(last <= bnd)] *)
Definition within_bound (a : attempt) : bool :=
  forallb (fun x => x <=? att_bnd a) (att_last a).

(** [for k in xrange(k, k + count)] with its [else] clause; [prev] is what
    the previous pass left, if there was one. *)
Fixpoint dichotomy_loop (f : float -> float) (k count : nat)
         (prev : option attempt) (raise_no_convergence : bool)
  : result (list float) :=
  match count with
  | O =>
      match prev with
      | None => Raise UnboundLocalError
      | Some a =>
          if raise_no_convergence
          then Raise (NoConvergence (att_last a) (att_bnd a))
          else Ok (att_coeffs a)
      end
  | S count' =>
      a <- dichotomy_step f k ;;
      if within_bound a then Ok (att_coeffs a)
      else dichotomy_loop f (S k) count' (Some a) raise_no_convergence
  end.

Definition dichotomy (f : float -> float) (kmin kmax : nat)
           (raise_no_convergence : bool) : result (list float) :=
  dichotomy_loop f kmin (kmax - kmin)%nat None raise_no_convergence.

(** [N] is the optional hint; [int(np.log2(N))] is the integer logarithm,
    and fails on [N = 0]. *)
Definition from_function (f : float -> float) (domain : interval)
           (N : option nat) : result Fun :=
  let '(a, b) := domain in
  let map_ui_ab t := 0.5 * (b - a) * t + 0.5 * (a + b) in
  let g t := f (map_ui_ab t) in
  coeffs <- match N with
            | Some N =>
                if (N =? 0)%nat then Raise OverflowError
                else
                  let nextpow2 := (Nat.log2 N + 1)%nat in
                  dichotomy g nextpow2 (nextpow2 + 1)%nat false
            | None => dichotomy g 2 12 true
            end ;;
  from_chebcoeff coeffs domain true 1.

End Methods.

(** ** Operators, restriction, calculus and rootfinding *)

(** The default tolerances of [np.allclose]: [rtol = 1e-05], [atol = 1e-08]. *)
Definition default_rtol : float := 0x1.4f8b588e368f1p-17.
Definition default_atol : float := 0x1.5798ee2308c3ap-27.

(** [same_domain]: [np.allclose] of the two domains with
    [rtol = atol = 1e-14]. *)
Definition same_domain (fun1 fun2 : Fun) : bool :=
  let '(a1, b1) := _domain fun1 in
  let '(a2, b2) := _domain fun2 in
  Np.isclose 0x1.6849b86a12b9bp-47 0x1.6849b86a12b9bp-47 a1 a2
  && Np.isclose 0x1.6849b86a12b9bp-47 0x1.6849b86a12b9bp-47 b1 b2.

Section Operators.

Context {E : Extern}.

(** The decorator [cast_scalar]: a scalar on the right becomes a constant
    Fun on the domain of [self]. *)
Definition cast_scalar {A} (method : Fun -> Fun -> result A)
           (self : Fun) (other : operand) : result A :=
  match other with
  | Scalar c => o <- init [c] (domain self) None ;; method self o
  | AFun g => method self g
  end.

Definition __nonzero__ (self : Fun) : bool :=
  negb (forallb (fun v => Np.isclose default_rtol default_atol v 0)
                (values self)).

Definition __add__ : Fun -> operand -> result Fun :=
  cast_scalar (fun self other =>
    if negb (same_domain self other)
    then Raise (DomainMismatch (domain self) (domain other))
    else
      (* ps = [self, other] indexed by a boolean *)
      let ps (i : bool) := if i then other else self in
      let diff := (Z.of_nat (size other) - Z.of_nat (size self))%Z in
      let big := (0 <? diff)%Z in
      let small := negb big in
      small_coeffs <- chebyshev_coefficients (ps small) ;;
      big_coeffs <- chebyshev_coefficients (ps big) ;;
      let padded := Np.zeros (length big_coeffs) in
      padded <- Np.set_prefix padded small_coeffs ;;
      let chebsum := Np.map2 add big_coeffs padded in
      new_vscale <- Np.max [_vscale self; _vscale other] ;;
      from_chebcoeff chebsum (domain self) true new_vscale).

Definition __radd__ : Fun -> operand -> result Fun := __add__.

Definition __neg__ (self : Fun) : result Fun :=
  from_data (map opp (values self)) (domain self).

Definition __sub__ : Fun -> operand -> result Fun :=
  cast_scalar (fun self other =>
    negated <- __neg__ other ;;
    __add__ self (AFun negated)).

Definition __rsub__ (self : Fun) (other : operand) : result Fun :=
  d <- __sub__ self other ;;
  __neg__ d.

Definition __eq__ (self : Fun) (other : operand) : result bool :=
  d <- __sub__ self other ;;
  Ok (negb (__nonzero__ d)).

Definition __neq__ (self : Fun) (other : operand) : result bool :=
  e <- __eq__ self other ;;
  Ok (negb e).

(** The operators [_add_operator] attaches: resample the pointwise
    result and refit. *)
Definition _add_operator (op : float -> float -> float)
  : Fun -> operand -> result Fun :=
  cast_scalar (fun self other =>
    if negb (same_domain self other)
    then Raise (DomainMismatch (domain self) (domain other))
    else from_function (fun x => op (call self x) (call other x))
                       (domain self) None).

Definition __mul__ := _add_operator mul.
Definition __div__ := _add_operator div.
(** [power] is [operator.__pow__] on two numbers. *)
Definition __pow__ (power : float -> float -> float) := _add_operator power.
Definition __rdiv__ := _add_operator (fun a b => b / a).

Definition __rmul__ (self : Fun) (other : operand) := __mul__ self other.
Definition __truediv__ (self : Fun) (other : operand) := __div__ self other.
Definition __rtruediv__ (self : Fun) (other : operand) := __rdiv__ self other.

Definition restrict (self : Fun) (subinterval : list float) : result Fun :=
  match subinterval with
  | [c; d] =>
      if d <=? c then Raise (ValueError subinterval)
      else if c <? fst (_domain self)
      then Raise (ValueError [c; fst (_domain self)])
      else if snd (_domain self) <? d
      then Raise (ValueError [d; snd (_domain self)])
      else from_function (call self) (c, d) None
  | _ => Raise (ValueError subinterval)
  end.

(** *** Chebfun *)

Definition identity (domain : interval) : result Fun :=
  from_data [snd domain; fst domain] domain.

Definition basis (n : nat) : result Fun :=
  if (n =? 0)%nat then init [1] default_domain None
  else
    let vals := Np.ones (n + 1) in
    let vals := Np.set_odd (-1) vals in
    init vals default_domain None.

Definition integrate (self : Fun) : result Fun :=
  coeffs <- chebyshev_coefficients self ;;
  let '(a, b) := domain self in
  let int_coeffs := map (fun c => 0.5 * (b - a) * c) (chebint coeffs) in
  antiderivative <- from_chebcoeff int_coeffs (domain self) true 1 ;;
  __sub__ antiderivative (Scalar (call antiderivative a)).

(** An eigenvalue is kept when [np.allclose(root.imag, 0, atol=1e-10)]
    and [np.abs(root.real) <= 1]. *)
Definition keep_root (root : complex) : bool :=
  Np.isclose default_rtol 0x1.b7cdfd9d7bdbbp-34 (im root) 0
  && (abs (re root) <=? 1).

(** [eigvals] is [linalg.eigvals]; [fuel] bounds the depth of the
    recursion, as Python's recursion limit does. *)
Fixpoint roots (eigvals : matrix -> list complex) (fuel : nat) (self : Fun)
  : result (list float) :=
  match fuel with
  | O => Raise RecursionError
  | S fuel' =>
      if (size self <=? 100)%nat then
        ak <- chebyshev_coefficients self ;;
        let v := Np.zeros (length (removelast ak)) in
        v <- Np.setitem v 1 0.5 ;;
        let C1 := Np.toeplitz v in
        let C2 := Np.zeros_like C1 in
        C1 <- Np.setitem2 C1 0 1 1 ;;
        C2 <- Np.setrow C2 (-1) (removelast ak) ;;
        ak_last <- Np.getitem ak (-1) 0 ;;
        let C := Np.map2 (Np.map2 (fun x y => x - 0.5 / ak_last * y)) C1 C2 in
        let eigenvalues := eigvals C in
        Ok (Np.sort (map (_ui_to_ab self)
                         (map re (filter keep_root eigenvalues))))
      else
        let split_point := _ui_to_ab self 0x1.948b0f8fab5e6p-7 in
        left <- restrict self [fst (_domain self); split_point] ;;
        left_roots <- roots eigvals fuel' left ;;
        right <- restrict self [split_point; snd (_domain self)] ;;
        right_roots <- roots eigvals fuel' right ;;
        Ok (left_roots ++ right_roots)
  end.

End Operators.

(** ** Differentiation, quadrature and the remaining constructors *)

Module NpSlice.

(** [l[lo:hi]] *)
Definition slice {A} (l : list A) (lo hi : nat) : list A :=
  firstn (hi - lo) (skipn lo l).

(** [l[lo:hi] = src]: the slice is overwritten by an array of its length;
    a single value is broadcast and any other length does not fit. *)
Definition set_slice {A} (l : list A) (lo hi : nat) (src : list A)
  : result (list A) :=
  let lo := Nat.min lo (length l) in
  let hi := Nat.max lo (Nat.min hi (length l)) in
  if (length src =? hi - lo)%nat then Ok (firstn lo l ++ src ++ skipn hi l)
  else
    match src with
    | [x] => Ok (firstn lo l ++ repeat x (hi - lo) ++ skipn hi l)
    | _ => Raise (ValueError [])
    end.

(** [l[::2]] *)
Fixpoint every_other {A} (l : list A) : list A :=
  match l with
  | [] => []
  | x :: t => x :: match t with [] => [] | _ :: t' => every_other t' end
  end.

End NpSlice.

Section Calculus.

Context {E : Extern}.

(** [Fun.from_fun] *)
Definition from_fun (other : Fun) : result Fun :=
  init (values other) (domain other) None.

(** One pass of the loop of [differentiator], for one [j]. *)
Definition differentiator_pass (m : nat) (SA DA : list float) (j : nat)
  : result (list float) :=
  let k := (Z.of_nat m - 3 - 2 * Z.of_nat j)%Z in
  s <- Np.getitem SA (k + 1)%Z 0 ;;
  d <- Np.getitem DA (k + 2)%Z 0 ;;
  DA <- Np.setitem DA k (s + d) ;;
  s <- Np.getitem SA k 0 ;;
  d <- Np.getitem DA (k + 1)%Z 0 ;;
  Np.setitem DA (k - 1)%Z (s + d).

(** [Chebfun.differentiator].  The slice bounds [m - 3], [m - 2] and
    [m - 1] are negative only for an empty [A], where the slices are empty
    either way. *)
Definition differentiator (A : list float) : result (list float) :=
  let m := length A in
  let SA := Np.map2 (fun a k => a * 2 * float_of_nat k) A (seq 0 m) in
  let DA := Np.zeros m in
  if (m =? 1)%nat then Ok (Np.zeros (length (NpSlice.slice A 0 1)))
  else if (m =? 2)%nat then Ok (NpSlice.slice A 1 2)
  else
    DA <- NpSlice.set_slice DA (m - 3) (m - 1) (NpSlice.slice SA (m - 2) m) ;;
    DA <- fold_left (fun acc j => DA <- acc ;; differentiator_pass m SA DA j)
                    (seq 0 (m / 2 - 1)) (Ok DA) ;;
    s <- Np.getitem SA 1 0 ;;
    d <- Np.getitem DA 2 0 ;;
    Np.setitem DA 0 ((s + d) * 0.5).

(** [differentiator] applied [n] times. *)
Fixpoint differentiator_iter (n : nat) (ak : list float) : result (list float) :=
  match n with
  | O => Ok ak
  | S n' => ak <- differentiator ak ;; differentiator_iter n' ak
  end.

(** [Chebfun.differentiate]; [power] is [**] between a float and an
    [int]. *)
Definition differentiate (power : float -> nat -> float) (n : nat) (self : Fun)
  : result Fun :=
  ak <- chebyshev_coefficients self ;;
  let '(a_, b_) := domain self in
  ak <- differentiator_iter n ak ;;
  from_chebcoeff (map (fun c => power (2 / (b_ - a_)) n * c) ak)
                 (domain self) true 1.

(** [Chebfun.sum]: Clenshaw-Curtis quadrature; [np_sum] is [np.sum] on a
    one-dimensional array. *)
Definition sum (np_sum : list float -> float) (self : Fun) : result float :=
  ak <- chebyshev_coefficients self ;;
  let ak2 := NpSlice.every_other ak in
  let n := length ak2 in
  let Tints := map (fun j => 2 / (1 - float_of_nat ((2 * j) ^ 2))) (seq 0 n) in
  let val := np_sum (Np.map2 mul Tints ak2) in
  let '(a_, b_) := domain self in
  Ok (0.5 * (b_ - a_) * val).

(** [Fun.dot] and [Fun.norm] *)
Definition dot (np_sum : list float -> float) (self other : Fun) : result float :=
  prod <- __mul__ self (AFun other) ;;
  sum np_sum prod.

Definition norm (np_sum : list float -> float) (self : Fun) : result float :=
  d <- dot np_sum self self ;;
  Ok (sqrt d).

(** *** The constructor [chebfun] *)

(** What the caller passes as [f]: nothing, a Fun, a callable, a scalar,
    an iterable of sample values, or some other object. *)
Inductive chebfun_input : Type :=
| InNone
| InFun (g : Fun)
| InCallable (h : float -> float)
| InScalar (c : float)
| InIterable (samples : list float)
| InOther.

(** The outcome of the dispatch: what the chosen constructor gives, or the
    [TypeError] of an input that fits none. *)
Inductive chebfun_result : Type :=
| Built (r : result Fun)
| TypeError.

Definition chebfun (f : chebfun_input) (domain : interval) (N : option nat)
           (chebcoeff : option (list float)) : chebfun_result :=
  match chebcoeff with
  | Some c => Built (from_chebcoeff c domain true 1)
  | None =>
      match f with
      | InFun g => Built (from_fun g)
      | InCallable h => Built (from_function h domain N)
      | InScalar c => Built (init [c] domain None)
      | InIterable samples => Built (init samples domain None)
      | InNone | InOther => TypeError
      end
  end.

End Calculus.


(** ** Reference implementations of the external routines

    Executable stand-ins for the numpy and scipy routines, used to run the
    methods on concrete inputs: a cosine for the arguments
    [interpolation_points] passes, the discrete Fourier transform (radix 2
    for a length that is a power of two, the defining sum otherwise),
    numpy's [chebint] and scipy's barycentric formula. *)
Module Reference.

(** [count] terms of a Taylor sum: each term is the previous one times
    [-z / ((k + 1) (k + 2))]. *)
Fixpoint taylor (z term k : float) (count : nat) : float :=
  match count with
  | O => 0
  | S c => term + taylor z (term * (- z) / ((k + 1) * (k + 2))) (k + 2) c
  end.

Definition cos_kernel (r : float) : float := taylor (r * r) 1 0 10.
Definition sin_kernel (r : float) : float := taylor (r * r) r 1 10.

(** [pi/2] and [pi] as a binary64 number plus a correction. *)
Definition pio2_hi : float := 0x1.921fb54442d18p+0.
Definition pio2_lo : float := 0x1.1a62633145c07p-54.
Definition pi_lo : float := 0x1.1a62633145c07p-53.

(** The cosine on [[-5 pi/4, 5 pi/4]]; [interpolation_points] stays within
    [[0, pi]] up to rounding. *)
Definition cos (x : float) : float :=
  let x := abs x in
  if x <=? 0x1.921fb54442d18p-1 then cos_kernel x
  else if x <=? 0x1.2d97c7f3321d2p+1 then sin_kernel ((pio2_hi - x) + pio2_lo)
  else if x <=? 0x1.f6a7a2955385ep+1 then - cos_kernel ((x - np_pi) - pi_lo)
  else nan.

Fixpoint float_of_pos (q : positive) : float :=
  match q with
  | xH => 1
  | xO r => 2 * float_of_pos r
  | xI r => 2 * float_of_pos r + 1
  end.

Definition float_of_N (n : N) : float :=
  match n with
  | N0 => 0
  | Npos q => float_of_pos q
  end.

(** Cosine and sine of [(pi/2) (r/n)] for [r < n]. *)
Definition quarter_turn (n r : N) : float * float :=
  if (2 * r <=? n)%N then
    let t := pio2_hi * float_of_N r / float_of_N n in
    (cos_kernel t, sin_kernel t)
  else
    let t := pio2_hi * float_of_N (n - r) / float_of_N n in
    (sin_kernel t, cos_kernel t).

(** Cosine and sine of [2 pi m / n]; multiples of a quarter turn are exact. *)
Definition twiddle (n m : N) : float * float :=
  let m4 := (4 * (m mod n))%N in
  let '(c, s) := quarter_turn n (m4 mod n)%N in
  match (m4 / n)%N with
  | 0%N => (c, s)
  | 1%N => (- s, c)
  | 2%N => (- c, - s)
  | _ => (s, - c)
  end.

(** [exp(-+ 2 pi i m / n)]: the sign is [+] for the inverse transform. *)
Definition root (inverse : bool) (n m : nat) : complex :=
  let '(c, s) := twiddle (N.of_nat n) (N.of_nat m) in
  Cplx c (if inverse then s else - s).

Definition cadd (x y : complex) : complex :=
  Cplx (re x + re y) (im x + im y).

Definition csub (x y : complex) : complex :=
  Cplx (re x - re y) (im x - im y).

Definition cmul (x y : complex) : complex :=
  Cplx (re x * re y - im x * im y) (re x * im y + im x * re y).

(** Output [k] of the transform of [l] by its defining sum. *)
Definition dft_entry (inverse : bool) (l : list complex) (k : nat) : complex :=
  let n := length l in
  fold_left (fun acc jx => cadd acc (cmul (snd jx) (root inverse n (fst jx * k))))
            (combine (seq 0 n) l) (Cplx 0 0).

(** The entries at even positions, and those at odd positions. *)
Fixpoint evens {A} (l : list A) : list A :=
  match l with
  | [] => []
  | x :: t => x :: match t with [] => [] | _ :: t' => evens t' end
  end.

Definition odds {A} (l : list A) : list A :=
  match l with
  | [] => []
  | _ :: t => evens t
  end.

(** The radix-2 transform of a list of length [2^levels]. *)
Fixpoint radix2 (inverse : bool) (levels : nat) (l : list complex) : list complex :=
  match levels with
  | O => l
  | S levels' =>
      let e := radix2 inverse levels' (evens l) in
      let o := radix2 inverse levels' (odds l) in
      let n := length l in
      let t := Np.map2 (fun k z => cmul (root inverse n k) z) (seq 0 (length o)) o in
      Np.map2 cadd e t ++ Np.map2 csub e t
  end.

(** The transform: radix 2 when the length is a power of two, the defining
    sum otherwise. *)
Definition transform (inverse : bool) (l : list complex) : list complex :=
  let n := length l in
  if (2 ^ Nat.log2 n =? n)%nat then radix2 inverse (Nat.log2 n) l
  else map (dft_entry inverse l) (seq 0 n).

Definition dft (l : list float) : result (list complex) :=
  match l with
  | [] => Raise (ValueError [])
  | _ => Ok (transform false (map (fun x => Cplx x 0) l))
  end.

Definition idft (l : list float) : result (list complex) :=
  match l with
  | [] => Raise (ValueError [])
  | _ =>
      Ok (map (fun z => cdiv z (float_of_nat (length l)))
              (transform true (map (fun x => Cplx x 0) l)))
  end.

(** [chebval(x, c)]: Clenshaw's recurrence from the last coefficient down. *)
Definition chebval (x : float) (c : list float) : float :=
  match rev c with
  | [] => 0
  | [a] => a + 0 * x
  | c1 :: c0 :: rest =>
      let x2 := 2 * x in
      let '(c0, c1) :=
        fold_left (fun st ci => (ci - snd st, fst st + snd st * x2)) rest (c0, c1) in
      c0 + c1 * x
  end.

(** [chebint(c)] with its defaults [m = 1], [k = 0], [lbnd = 0]. *)
Definition cheb_int (c : list float) : list float :=
  let n := length c in
  match c with
  | [] => []
  | c0 :: t =>
      if (n =? 1)%nat && (c0 =? 0) then [c0 + 0]
      else
        let tmp := [c0 * 0; c0]
                   ++ match t with c1 :: _ => [c1 / 4] | [] => [] end
                   ++ Np.zeros (n - 2) in
        let tmp :=
          fold_left
            (fun tmp j =>
               let cj := nth j c 0 in
               let tmp := Np.update (fun _ => cj / float_of_nat (2 * (j + 1))) (j + 1) tmp in
               Np.update (fun old => old - cj / float_of_nat (2 * (j - 1))) (j - 1) tmp)
            (seq 2 (n - 2)) tmp in
        Np.update (fun t0 => t0 + (0 - chebval 0 tmp)) 0 tmp
  end.

(** The barycentric formula; a query point that coincides with a node
    returns the value stored there. *)
Definition barycentric (p : Bary.t) (x : float) : float :=
  let c := map (fun xj => x - xj) (Bary.xi p) in
  match Np.nonzero (map (fun d => d =? 0) c) with
  | [] =>
      let q := Np.map2 (fun w d => w / d) (Bary.wi p) c in
      fold_left add (Np.map2 mul q (Bary.yi p)) 0 / fold_left add q 0
  | hits => nth (last hits 0%nat) (Bary.yi p) 0
  end.

Definition extern : Extern :=
  {| np_cos := cos;
     fft := dft;
     ifft := idft;
     chebint := cheb_int;
     bary_call := barycentric |}.

End Reference.


(** ** Notions used in the statements *)

(** A Fun the constructor has built. *)
Definition constructed {E : Extern} (f : Fun) : Prop :=
  exists values domain vscale, init values domain vscale = Ok f.

(** The sign and magnitude of the barycentric weight of node [i] among [N]
    nodes: positive at even nodes, one half at the two boundary nodes. *)
Definition weight_negative (i : nat) : bool := Nat.odd i.

Definition weight_magnitude (N i : nat) : float :=
  if (i =? 0)%nat || (i =? N - 1)%nat then 0.5 else 1.

(** The coefficients fitted to [f] sampled at [2^k + 1] Chebyshev points. *)
Definition coeffs_at {E : Extern} (f : float -> float) (k : nat) : list float :=
  match chebpolyfit (map f (interpolation_points (2 ^ k + 1))) with
  | Ok c => c
  | Raise _ => []
  end.

(** The rules the statements compare the methods with. *)
Module Spec.

(** A coefficient reaches the threshold [bnd]. *)
Definition reaches (bnd c : float) : bool := bnd <=? abs c.

(** The highest index whose coefficient reaches [bnd], if there is one. *)
Fixpoint highest (bnd : float) (coeffs : list float) : option nat :=
  match coeffs with
  | [] => None
  | c :: t =>
      match highest bnd t with
      | Some i => Some (S i)
      | None => if reaches bnd c then Some 0%nat else None
      end
  end.

(** The prefix up to and including that coefficient; one coefficient when
    none reaches the threshold. *)
Definition prefix_kept (bnd : float) (coeffs : list float) : list float :=
  match highest bnd coeffs with
  | Some i => firstn (i + 1) coeffs
  | None => firstn 1 coeffs
  end.

(** Pruning against the threshold of the adaptive sampler,
    [128 * emach * max |coeffs|]. *)
Definition prune_by_max (coeffs : list float) : result (list float) :=
  m <- Np.max (map abs coeffs) ;;
  Ok (prefix_kept (128 * emach * m) coeffs).

(** The last two coefficients are at most [128 * emach * max |coeffs|] in
    magnitude. *)
Definition tail_negligible (coeffs : list float) : bool :=
  match Np.max (map abs coeffs) with
  | Ok m => forallb (fun c => abs c <=? 128 * emach * m) (Np.last_two coeffs)
  | Raise _ => false
  end.

(** The shorter of two coefficient vectors padded with zeros to the length
    of the longer, and added to it. *)
Definition pad (c : list float) (len : nat) : list float :=
  c ++ Np.zeros (len - length c).

Definition padded_sum (c1 c2 : list float) : list float :=
  if (length c1 <? length c2)%nat
  then Np.map2 add c2 (pad c1 (length c2))
  else Np.map2 add c1 (pad c2 (length c1)).

End Spec.

(** The colleague matrix of a coefficient vector [ak], entry by entry: one
    half next to the diagonal, 1 at row 0 and column 1, and in the last row
    the coefficients scaled by [0.5 / ak[-1]] subtracted. *)
Module Colleague.




End Colleague.

(** The scaled coefficients the derivative recurrence adds:
    [SA[k] = A[k] * 2 * k]. *)
Definition scaled (A : list float) (k : nat) : float :=
  nth k A 0 * 2 * float_of_nat k.

(** * Properties *)

(** ** Arrays *)

Lemma index_in_range (len j : nat) :
  (j < len)%nat -> Np.index len (Z.of_nat j) = Ok j.
Proof.
  intros H. unfold Np.index.
  destruct (Z.ltb_spec (Z.of_nat j) 0); [lia|].
  destruct (Z.leb_spec 0 (Z.of_nat j)); [|lia].
  destruct (Z.ltb_spec (Z.of_nat j) (Z.of_nat len)); [|lia].
  simpl. now rewrite Nat2Z.id.
Qed.

Lemma index_zero (len : nat) :
  (0 < len)%nat -> Np.index len 0 = Ok 0%nat.
Proof. exact (@index_in_range len 0). Qed.

Lemma index_out_of_range (len j : nat) :
  (len <= j)%nat -> Np.index len (Z.of_nat j) = Raise IndexError.
Proof.
  intros H. unfold Np.index.
  destruct (Z.ltb_spec (Z.of_nat j) 0); [lia|].
  destruct (Z.ltb_spec (Z.of_nat j) (Z.of_nat len)); [lia|].
  now rewrite andb_false_r.
Qed.

Lemma index_last (len : nat) :
  (0 < len)%nat -> Np.index len (-1) = Ok (len - 1)%nat.
Proof.
  intros H. unfold Np.index.
  change (-1 <? 0)%Z with true. cbv iota.
  destruct (Z.leb_spec 0 (-1 + Z.of_nat len)); [|lia].
  destruct (Z.ltb_spec (-1 + Z.of_nat len) (Z.of_nat len)); [|lia].
  cbn [andb]. f_equal. lia.
Qed.

Lemma index_ok_lt (len : nat) (i : Z) (j : nat) :
  Np.index len i = Ok j -> (j < len)%nat.
Proof.
  unfold Np.index.
  destruct (_ && _)%bool eqn:Hb; [|discriminate].
  intros [= <-]. apply andb_prop in Hb. lia.
Qed.

Lemma update_length {A} (f : A -> A) (i : nat) (l : list A) :
  length (Np.update f i l) = length l.
Proof.
  revert i. induction l as [|x t IH]; intros [|i]; simpl; auto.
Qed.

Lemma nth_update {A} (f : A -> A) (i j : nat) (l : list A) (d : A) :
  (i < length l)%nat ->
  nth j (Np.update f i l) d = if (j =? i)%nat then f (nth i l d) else nth j l d.
Proof.
  revert i j. induction l as [|x t IH]; intros i j H; simpl in H; [lia|].
  destruct i, j; simpl; auto.
  apply IH. lia.
Qed.

Lemma set_odd_length {A} (v : A) (l : list A) :
  length (Np.set_odd v l) = length l.
Proof.
  enough (H : forall k (m : list A), (length m <= k)%nat ->
                length (Np.set_odd v m) = length m) by (apply (H (length l)); lia).
  induction k as [|k IH]; intros [|x [|y t]] Hm; simpl in *; try lia; auto.
  rewrite IH by lia. reflexivity.
Qed.

Lemma nth_set_odd {A} (v d : A) (l : list A) (i : nat) :
  (i < length l)%nat ->
  nth i (Np.set_odd v l) d = if Nat.odd i then v else nth i l d.
Proof.
  enough (H : forall k (m : list A) j, (length m <= k)%nat -> (j < length m)%nat ->
                nth j (Np.set_odd v m) d = if Nat.odd j then v else nth j m d)
    by (apply (H (length l)); lia).
  induction k as [|k IH]; intros [|x [|y t]] j Hm Hj; simpl in *; try lia.
  - destruct j; [reflexivity | lia].
  - destruct j as [|[|j]]; try reflexivity.
    rewrite IH by lia. now rewrite Nat.odd_succ_succ.
Qed.

Lemma map2_length {A B C} (f : A -> B -> C) (l : list A) (m : list B) :
  length (Np.map2 f l m) = Nat.min (length l) (length m).
Proof.
  revert m. induction l as [|x l IH]; intros [|y m]; simpl; auto.
Qed.

(** ** The interpolator and the constructor *)

Section Construction.

Context {E : Extern}.

Lemma interpolator_ok (x values : list float) :
  values <> [] ->
  exists w,
    interpolator x values = Ok (Bary.Make w x values (length values))
    /\ length w = length values
    /\ forall i, (i < length values)%nat ->
         nth i w 0 =
         (fun u => if (i =? length values - 1)%nat then u * 0.5 else u)
           (if Nat.odd i then -1 else if (i =? 0)%nat then 0.5 else 1).
Proof.
  intros Hne.
  assert (Hlen : (0 < length values)%nat) by (destruct values; simpl; [congruence | lia]).
  unfold interpolator, Np.setitem, Np.moditem.
  rewrite index_zero by (unfold Np.ones; rewrite repeat_length; exact Hlen).
  cbn [bind].
  rewrite index_last
    by (rewrite set_odd_length, update_length; unfold Np.ones;
        rewrite repeat_length; exact Hlen).
  cbn [bind].
  eexists. split; [reflexivity|].
  rewrite !update_length, set_odd_length, update_length.
  unfold Np.ones. rewrite repeat_length. split; [reflexivity|].
  intros i Hi.
  rewrite nth_update
    by (rewrite set_odd_length, update_length, repeat_length; lia).
  destruct (Nat.eqb_spec i (length values - 1)) as [->|Hn].
  - rewrite nth_set_odd by (rewrite update_length, repeat_length; lia).
    rewrite nth_update by (rewrite repeat_length; lia).
    destruct (Nat.odd (length values - 1)); [reflexivity|].
    destruct (length values - 1 =? 0)%nat; [reflexivity|].
    now rewrite nth_repeat_lt by lia.
  - rewrite nth_set_odd by (rewrite update_length, repeat_length; lia).
    rewrite nth_update by (rewrite repeat_length; lia).
    destruct (Nat.odd i); [reflexivity|].
    destruct (i =? 0)%nat; [reflexivity|].
    now rewrite nth_repeat_lt by lia.
Qed.

Lemma init_ok (values : list float) (domain : interval) (vscale : option float) :
  values <> [] ->
  exists f,
    init values domain vscale = Ok f
    /\ _values f = values /\ _domain f = domain
    /\ Bary.n (p f) = length values
    /\ Bary.yi (p f) = values
    /\ Bary.xi (p f) = interpolation_points (length values)
    /\ interpolator (interpolation_points (length values)) values = Ok (p f)
    /\ match vscale with
       | Some v => _vscale f = v
       | None => Np.max (map abs values) = Ok (_vscale f)
       end.
Proof.
  intros Hne. unfold init.
  destruct (interpolator_ok (interpolation_points (length values)) Hne)
    as (w & Hw & _).
  destruct vscale as [v|]; cbn [bind].
  - rewrite Hw. cbn [bind]. eexists. split; [reflexivity|]. cbn. auto 10.
  - destruct values as [|v0 t]; [congruence|].
    cbn [map Np.max bind]. rewrite Hw. cbn [bind].
    eexists. split; [reflexivity|]. cbn. auto 10.
Qed.

Lemma constructed_inv (f : Fun) :
  constructed f ->
  _values f <> [] /\ size f = length (_values f)
  /\ init (_values f) (_domain f) (Some (_vscale f)) = Ok f.
Proof.
  intros (vs & d & vsc & H).
  destruct vs as [|v0 t].
  { unfold init in H. destruct vsc; cbn in H; discriminate. }
  destruct (init_ok d vsc (values := v0 :: t)) as (g & Hg & Hv & Hd & Hn & Hy & Hx & Hp & Hs);
    [discriminate|].
  rewrite Hg in H. injection H as <-.
  split; [rewrite Hv; discriminate|].
  split; [unfold size; rewrite Hn, Hv; reflexivity|].
  unfold init. cbn [bind]. rewrite Hv, Hp. cbn [bind].
  destruct g as [gv gs gp gd]. cbn in *. subst. reflexivity.
Qed.

End Construction.

(** C8. For every node count [N >= 2] the weights the interpolator is built
    with have magnitude 0.5 at the two boundary nodes and 1 at every interior
    node, and their signs alternate from node to node, starting positive. *)
Theorem interpolator_weights (x values : list float) :
  (2 <= length values)%nat ->
  exists p,
    interpolator x values = Ok p
    /\ length (Bary.wi p) = length values
    /\ forall i, (i < length values)%nat ->
         abs (nth i (Bary.wi p) 0) = weight_magnitude (length values) i
         /\ (nth i (Bary.wi p) 0 <? 0) = weight_negative i
         /\ (0 <? nth i (Bary.wi p) 0) = negb (weight_negative i).
Proof.
  intros HN.
  destruct (interpolator_ok x (values := values)) as (w & Hw & Hl & Hnth).
  { destruct values; simpl in HN; [lia | discriminate]. }
  eexists. split; [exact Hw|]. cbn [Bary.wi]. split; [exact Hl|].
  intros i Hi. rewrite (Hnth i Hi).
  unfold weight_magnitude, weight_negative.
  destruct (Nat.eqb_spec i (length values - 1)) as [->|Hlast];
    destruct (Nat.odd _) eqn:Hodd.
  - rewrite orb_true_r. repeat split; reflexivity.
  - rewrite orb_true_r.
    destruct (Nat.eqb_spec (length values - 1) 0); [lia|].
    repeat split; reflexivity.
  - destruct (Nat.eqb_spec i 0) as [->|]; [discriminate Hodd|].
    repeat split; reflexivity.
  - destruct (Nat.eqb_spec i 0) as [->|]; repeat split; reflexivity.
Qed.

Lemma interpolator_weights_witness :
  (2 <= length [1; 2; 3])%nat
  /\ exists p,
       interpolator [1; 0; -1] [1; 2; 3] = Ok p
       /\ length (Bary.wi p) = length [1; 2; 3]
       /\ forall i, (i < length [1; 2; 3])%nat ->
            abs (nth i (Bary.wi p) 0) = weight_magnitude (length [1; 2; 3]) i
            /\ (nth i (Bary.wi p) 0 <? 0) = weight_negative i
            /\ (0 <? nth i (Bary.wi p) 0) = negb (weight_negative i).
Proof.
  split; [simpl; lia | apply interpolator_weights; simpl; lia].
Defined.

(** ** The transforms *)

Lemma inner_reversed_length {A} (l : list A) :
  length (Np.inner_reversed l) = (length l - 2)%nat.
Proof.
  unfold Np.inner_reversed.
  rewrite length_rev, length_tl, removelast_firstn_len, length_firstn. lia.
Qed.

Lemma moditem_ok {A} (l : list A) (i : Z) (j : nat) (f : A -> A) :
  Np.index (length l) i = Ok j ->
  Np.moditem l i f = Ok (Np.update f j l).
Proof. intros H. unfold Np.moditem. now rewrite H. Qed.

Section Transforms.

Context {E : Extern} {L : ExternLaws E}.

Lemma dct_ok (data : list float) :
  (2 <= length data)%nat ->
  exists c, dct data = Ok c /\ length c = (length data / 2 + 1)%nat.
Proof.
  intros Hlen. unfold dct.
  destruct (fft_length (l := data)) as (spectrum & Hfft & Hs).
  { destruct data; simpl in Hlen; [lia | discriminate]. }
  rewrite Hfft. cbn [bind].
  assert (Hdiv : (length data / 2 + 1 <= length data)%nat).
  { pose proof (Nat.div_mod_eq (length data) 2).
    pose proof (Nat.mod_upper_bound (length data) 2). lia. }
  set (fftdata := map _ (firstn _ spectrum)).
  assert (Hf : length fftdata = (length data / 2 + 1)%nat).
  { unfold fftdata. rewrite length_map, length_firstn. lia. }
  rewrite (@moditem_ok _ _ _ 0%nat) by (apply index_zero; lia).
  cbn [bind].
  rewrite (@moditem_ok _ _ _ (length data / 2 + 1 - 1)%nat)
    by (rewrite update_length, Hf; apply index_last; lia).
  cbn [bind]. eexists. split; [reflexivity|].
  now rewrite length_map, !update_length.
Qed.

Lemma chebpolyfit_ok (sampled : list float) :
  sampled <> [] ->
  exists c, chebpolyfit sampled = Ok c /\ length c = length sampled.
Proof.
  intros Hne. unfold chebpolyfit.
  destruct (Nat.eqb_spec (length sampled) 1) as [H1|H1]; [eauto|].
  assert (Hlen : (2 <= length sampled)%nat).
  { destruct sampled as [|x [|y t]]; simpl in *; try congruence; lia. }
  assert (He : length (even_data sampled) = (2 * (length sampled - 1))%nat).
  { unfold even_data. rewrite length_app, inner_reversed_length. lia. }
  destruct (@dct_ok (even_data sampled)) as (c & Hc & Hl); [lia|].
  exists c. split; [exact Hc|].
  rewrite Hl, He, Nat.mul_comm, Nat.div_mul by lia. lia.
Qed.

Lemma chebpolyval_ok (chebcoeff : list float) :
  chebcoeff <> [] ->
  exists v, chebpolyval chebcoeff = Ok v /\ length v = length chebcoeff.
Proof.
  intros Hne. unfold chebpolyval.
  destruct (Nat.eqb_spec (length chebcoeff) 1) as [H1|H1]; [eauto|].
  assert (Hlen : (2 <= length chebcoeff)%nat).
  { destruct chebcoeff as [|x [|y t]]; simpl in *; try congruence; lia. }
  set (data := map _ (even_data chebcoeff)).
  assert (Hd : length data = (2 * (length chebcoeff - 1))%nat).
  { unfold data, even_data.
    rewrite length_map, length_app, inner_reversed_length. lia. }
  rewrite (@moditem_ok _ _ _ 0%nat) by (apply index_zero; lia).
  cbn [bind].
  rewrite (@moditem_ok _ _ _ (length chebcoeff - 1)%nat).
  2:{ rewrite update_length, Hd.
      replace (Z.of_nat (length chebcoeff) - 1)%Z
        with (Z.of_nat (length chebcoeff - 1)) by lia.
      apply index_in_range. lia. }
  cbn [bind].
  destruct (ifft_length (l := Np.update (fun c => c * 2) (length chebcoeff - 1)
                                (Np.update (fun c => c * 2) 0 data)))
    as (spectrum & Hs & Hl).
  { intros H0. apply (f_equal (@length float)) in H0.
    rewrite !update_length, Hd in H0. simpl in H0. lia. }
  rewrite Hs. cbn [bind]. eexists. split; [reflexivity|].
  rewrite length_map, length_firstn, length_map, Hl, !update_length, Hd. lia.
Qed.

Lemma chebyshev_coefficients_ok (f : Fun) :
  constructed f ->
  exists c, chebyshev_coefficients f = Ok c /\ length c = size f.
Proof.
  intros Hf. destruct (constructed_inv Hf) as (Hne & Hsz & _).
  destruct (chebpolyfit_ok Hne) as (c & Hc & Hl).
  exists c. split; [exact Hc|]. now rewrite Hsz.
Qed.

End Transforms.

(** A single sample is its own coefficient, and conversely: on one node the
    two transforms are the identity. *)
Lemma single_sample_roundtrip {E : Extern} (x : float) :
  chebpolyfit [x] = Ok [x] /\ chebpolyval [x] = Ok [x].
Proof. split; reflexivity. Qed.

Lemma fold_update_length {A B} (g : list A -> B -> list A) (js : list B)
      (tmp : list A) :
  (forall t j, length (g t j) = length t) ->
  length (fold_left g js tmp) = length tmp.
Proof.
  intros Hg. revert tmp. induction js as [|j js IH]; intros tmp; simpl; [reflexivity|].
  now rewrite IH, Hg.
Qed.

Lemma evens_odds_length {A} (h : nat) (l : list A) :
  length l = (2 * h)%nat ->
  length (Reference.evens l) = h /\ length (Reference.odds l) = h.
Proof.
  revert l. induction h as [|h IH]; intros l Hl.
  - destruct l; [split; reflexivity | discriminate].
  - destruct l as [|x [|y t]]; simpl in Hl; try lia.
    destruct (IH t) as [He Ho]; [lia|].
    cbn [Reference.evens Reference.odds length].
    split; [now rewrite He|].
    destruct t as [|z t']; [simpl in *; lia|].
    cbn [Reference.odds] in Ho. cbn [length]. now rewrite Ho.
Qed.

Lemma radix2_length (inverse : bool) (levels : nat) (l : list complex) :
  length l = (2 ^ levels)%nat ->
  length (Reference.radix2 inverse levels l) = length l.
Proof.
  revert l. induction levels as [|levels IH]; intros l Hl; [reflexivity|].
  cbn [Reference.radix2].
  destruct (@evens_odds_length _ (2 ^ levels) l) as [He Ho];
    [rewrite Hl; simpl; lia|].
  rewrite length_app, !map2_length, length_seq, !IH by lia.
  rewrite He, Ho, Hl. simpl. lia.
Qed.

Lemma transform_length (inverse : bool) (l : list complex) :
  length (Reference.transform inverse l) = length l.
Proof.
  unfold Reference.transform.
  destruct (Nat.eqb_spec (2 ^ Nat.log2 (length l)) (length l)) as [H|H].
  - apply radix2_length. now symmetry.
  - now rewrite length_map, length_seq.
Qed.

(** The reference routines satisfy the laws. *)
Lemma reference_laws : ExternLaws Reference.extern.
Proof.
  split.
  - intros [|x t] Hne; [congruence|]. cbn [fft Reference.extern].
    unfold Reference.dft. eexists. split; [reflexivity|].
    now rewrite transform_length, length_map.
  - intros [|x t] Hne; [congruence|]. cbn [ifft Reference.extern].
    unfold Reference.idft. eexists. split; [reflexivity|].
    now rewrite length_map, transform_length, length_map.
  - intros [|c0 t] Hne; [congruence|]. cbn [chebint Reference.extern].
    unfold Reference.cheb_int.
    destruct (_ && _)%bool; [discriminate|].
    intros H0. apply (f_equal (@length float)) in H0.
    rewrite update_length, fold_update_length in H0
      by (intros; now rewrite !update_length).
    simpl in H0. lia.
Qed.

(** C10. [basis n] is built from the [n + 1] values [+1, -1, +1, ...], which
    alternate in sign starting at [+1] (for [n = 0] the single value 1), on
    the default domain [[-1, 1]]. *)
Theorem basis_alternating {E : Extern} (n : nat) :
  exists f,
    basis n = Ok f
    /\ domain f = (-1, 1)
    /\ length (values f) = (n + 1)%nat
    /\ (forall i, (i <= n)%nat ->
          nth i (values f) 0 = if Nat.even i then 1 else -1)
    /\ (n = 0%nat -> values f = [1]).
Proof.
  unfold basis, values, domain.
  destruct (Nat.eqb_spec n 0) as [->|Hn].
  - destruct (@init_ok E [1] default_domain None) as (f & Hf & Hv & Hd & _);
      [discriminate|].
    exists f. rewrite Hv, Hd. repeat split; auto.
    intros i Hi. replace i with 0%nat by lia. reflexivity.
  - set (vals := Np.set_odd (-1) (Np.ones (n + 1))).
    assert (Hl : length vals = (n + 1)%nat).
    { unfold vals, Np.ones. now rewrite set_odd_length, repeat_length. }
    destruct (@init_ok E vals default_domain None) as (f & Hf & Hv & Hd & _).
    { intros H0. rewrite H0 in Hl. simpl in Hl. lia. }
    exists f. rewrite Hv, Hd. repeat split; auto; [|lia].
    intros i Hi. unfold vals, Np.ones.
    rewrite nth_set_odd by (rewrite repeat_length; lia).
    rewrite nth_repeat_lt by lia.
    rewrite <- Nat.negb_even. now destruct (Nat.even i).
Qed.

(** ** Pruning *)

Lemma nonzero_from_last (l : list bool) (s : nat) :
  match Np.nonzero_from s l with
  | [] => forall j, (j < length l)%nat -> nth j l false = false
  | inds =>
      exists i, last inds 0%nat = (s + i)%nat /\ (i < length l)%nat
                /\ nth i l false = true
                /\ forall j, (i < j < length l)%nat -> nth j l false = false
  end.
Proof.
  revert s. induction l as [|b t IH]; intros s; cbn [Np.nonzero_from].
  - simpl. intros j Hj. lia.
  - specialize (IH (S s)).
    destruct (Np.nonzero_from (S s) t) as [|r rs] eqn:Hrest.
    + destruct b.
      * exists 0%nat. cbn [last length nth]. repeat split; try lia.
        intros [|j] Hj; [lia|]. apply IH. lia.
      * intros [|j] Hj; [reflexivity|]. apply IH. simpl in Hj. lia.
    + destruct IH as (i & Hlast & Hi & Hnth & Hafter).
      assert (Hgoal : exists i0, last (r :: rs) 0%nat = (s + i0)%nat
                        /\ (i0 < length (b :: t))%nat
                        /\ nth i0 (b :: t) false = true
                        /\ forall j, (i0 < j < length (b :: t))%nat ->
                                     nth j (b :: t) false = false).
      { exists (S i). cbn [length nth]. repeat split; try lia; [exact Hnth|].
        intros [|j] Hj; [lia|]. apply Hafter. lia. }
      destruct b; [|exact Hgoal].
      destruct Hgoal as (i0 & H1 & H2). exists i0. split; [|exact H2].
      rewrite <- H1. reflexivity.
Qed.

(** The cutoff is one past the highest index whose coefficient reaches the
    threshold, and 1 when no coefficient does. *)
Lemma cutoff_spec (coeffs : list float) (vscale : float) :
  let reaches j := _threshold vscale <=? abs (nth j coeffs 0) in
  let N := _cutoff coeffs vscale in
  (forall j, (N <= j < length coeffs)%nat -> reaches j = false)
  /\ (((N - 1 < length coeffs)%nat /\ (1 <= N)%nat /\ reaches (N - 1)%nat = true)
      \/ (N = 1%nat /\ forall j, (j < length coeffs)%nat -> reaches j = false)).
Proof.
  intros reaches N. subst N. unfold _cutoff, Np.nonzero.
  set (flags := map (fun c => _threshold vscale <=? abs c) coeffs).
  assert (Hflag : forall j, (j < length coeffs)%nat -> nth j flags false = reaches j).
  { intros j Hj. unfold flags, reaches.
    rewrite (nth_indep _ false (_threshold vscale <=? abs 0))
      by (rewrite length_map; exact Hj).
    apply (map_nth (fun c => _threshold vscale <=? abs c)). }
  assert (Hlen : length flags = length coeffs) by (unfold flags; apply length_map).
  pose proof (nonzero_from_last flags 0) as H.
  destruct (Np.nonzero_from 0 flags) as [|r rs].
  - rewrite Hlen in H. split.
    + intros j Hj. rewrite <- Hflag by lia. apply H. lia.
    + right. split; [reflexivity|]. intros j Hj. rewrite <- Hflag by lia. now apply H.
  - destruct H as (i & Hlast & Hi & Hnth & Hafter). rewrite Hlen in *.
    rewrite Hlast. cbn [Nat.add]. split.
    + intros j Hj. rewrite <- Hflag by lia. apply Hafter. lia.
    + left. replace (i + 1 - 1)%nat with i by lia.
      rewrite <- Hflag by lia. repeat split; auto; lia.
Qed.

Lemma cutoff_positive (coeffs : list float) (vscale : float) :
  (1 <= _cutoff coeffs vscale)%nat.
Proof. unfold _cutoff. lia. Qed.

Lemma pruned_coeffs_nonempty (coeffs : list float) (prune : bool) (vscale : float) :
  coeffs <> [] -> pruned_coeffs coeffs prune vscale <> [].
Proof.
  intros Hne. unfold pruned_coeffs. destruct prune; [|exact Hne].
  pose proof (cutoff_positive coeffs vscale).
  destruct coeffs; [congruence|].
  destruct (_cutoff _ _); [lia | discriminate].
Qed.

Section FromCoefficients.

Context {E : Extern} {L : ExternLaws E}.

Lemma from_chebcoeff_ok (coeffs : list float) (d : interval) (prune : bool)
      (vscale : float) :
  coeffs <> [] ->
  exists f,
    from_chebcoeff coeffs d prune vscale = Ok f
    /\ chebpolyval (pruned_coeffs coeffs prune vscale) = Ok (values f)
    /\ domain f = d /\ _vscale f = vscale
    /\ size f = length (pruned_coeffs coeffs prune vscale)
    /\ constructed f.
Proof.
  intros Hne. unfold from_chebcoeff.
  destruct (chebpolyval_ok (pruned_coeffs_nonempty prune vscale Hne))
    as (v & Hv & Hl).
  rewrite Hv. cbn [bind].
  destruct (@init_ok E v d (Some vscale)) as (f & Hf & Hfv & Hd & Hn & _ & _ & _ & Hs).
  { intros H0. rewrite H0 in Hl. symmetry in Hl. apply length_zero_iff_nil in Hl.
    revert Hl. now apply pruned_coeffs_nonempty. }
  exists f. unfold values, domain, size. rewrite Hfv, Hn.
  repeat split; auto. exists v, d, (Some vscale). exact Hf.
Qed.

End FromCoefficients.

Lemma highest_spec (bnd : float) (coeffs : list float) :
  match Spec.highest bnd coeffs with
  | None =>
      forall j, (j < length coeffs)%nat -> Spec.reaches bnd (nth j coeffs 0) = false
  | Some i =>
      (i < length coeffs)%nat /\ Spec.reaches bnd (nth i coeffs 0) = true
      /\ forall j, (i < j < length coeffs)%nat ->
                   Spec.reaches bnd (nth j coeffs 0) = false
  end.
Proof.
  induction coeffs as [|c t IH]; cbn [Spec.highest].
  - simpl. intros j Hj. lia.
  - destruct (Spec.highest bnd t) as [i|].
    + destruct IH as (Hi & Hr & Hafter). cbn [length nth]. repeat split; auto; [lia|].
      intros [|j] Hj; [lia|]. apply Hafter. lia.
    + destruct (Spec.reaches bnd c) eqn:Hc.
      * cbn [length nth]. repeat split; auto; [lia|].
        intros [|j] Hj; [lia|]. apply IH. lia.
      * intros [|j] Hj; [exact Hc|]. apply IH. simpl in Hj. lia.
Qed.

(** The code prunes by the rule of the specification, with the threshold
    taken from the [vscale] argument. *)
Lemma pruned_coeffs_prefix_kept (coeffs : list float) (vscale : float) :
  pruned_coeffs coeffs true vscale
  = Spec.prefix_kept (128 * emach * vscale) coeffs.
Proof.
  unfold pruned_coeffs, Spec.prefix_kept.
  pose proof (cutoff_spec coeffs vscale) as [Hafter Hcase].
  pose proof (highest_spec (128 * emach * vscale) coeffs) as Hh.
  unfold Spec.reaches in Hh. unfold _threshold in Hafter, Hcase.
  destruct (Spec.highest _ coeffs) as [i|].
  - destruct Hh as (Hi & Hr & Hnone).
    destruct Hcase as [(HN & H1 & Hreach)|(HN & Hall)].
    + f_equal.
      destruct (Nat.lt_trichotomy (_cutoff coeffs vscale - 1) i) as [Hlt|[Heq|Hgt]].
      * rewrite Hafter in Hr by lia. discriminate.
      * lia.
      * rewrite Hnone in Hreach by lia. discriminate.
    + rewrite Hall in Hr by lia. discriminate.
  - destruct Hcase as [(HN & H1 & Hreach)|(HN & Hall)].
    + rewrite Hh in Hreach by lia. discriminate.
    + now rewrite HN.
Qed.

(** C4, as the code has it.  [from_chebcoeff] with [prune = True] keeps the
    prefix of the coefficients up to and including the highest index whose
    magnitude reaches [128 * emach * vscale], where [vscale] is the argument
    of [from_chebcoeff] (1 by default) and not the largest coefficient; when
    no coefficient reaches it the result has length 1. *)
Theorem from_chebcoeff_prunes_at_vscale {E : Extern} {L : ExternLaws E}
        (coeffs : list float) (d : interval) (vscale : float) :
  coeffs <> [] ->
  let kept := Spec.prefix_kept (128 * emach * vscale) coeffs in
  exists f,
    from_chebcoeff coeffs d true vscale = Ok f
    /\ chebpolyval kept = Ok (values f)
    /\ size f = length kept
    /\ (Spec.highest (128 * emach * vscale) coeffs = None ->
        size f = 1%nat /\ values f = firstn 1 coeffs).
Proof.
  intros Hne kept.
  destruct (from_chebcoeff_ok d true vscale Hne) as (f & Hf & Hv & _ & _ & Hs & _).
  rewrite pruned_coeffs_prefix_kept in Hv, Hs. fold kept in Hv, Hs.
  exists f. repeat split; auto.
  - rewrite Hs. unfold kept, Spec.prefix_kept. rewrite H.
    destruct coeffs; [congruence | reflexivity].
  - unfold kept, Spec.prefix_kept in Hv. rewrite H in Hv.
    destruct coeffs as [|c0 t]; [congruence|].
    cbn in Hv. now injection Hv as <-.
Qed.

Lemma from_chebcoeff_prunes_at_vscale_witness :
  [1024; 0x1p-40; 0x1p-50] <> []
  /\ exists f,
       from_chebcoeff (E := Reference.extern) [1024; 0x1p-40; 0x1p-50] (-1, 1) true 1 = Ok f
       /\ size f = 2%nat.
Proof.
  split; [discriminate|].
  destruct (@from_chebcoeff_prunes_at_vscale Reference.extern reference_laws
              [1024; 0x1p-40; 0x1p-50] (-1, 1) 1) as (f & Hf & _ & Hs & _);
    [discriminate|].
  exists f. split; [exact Hf | exact Hs].
Defined.

(** C4, as stated, fails: the only coefficient of [[1024; 2^-40]] that
    reaches [128 * emach * max |coeffs|] is the first, yet [from_chebcoeff]
    keeps both. *)
Lemma from_chebcoeff_not_pruned_by_max :
  Spec.prune_by_max [1024; 0x1p-40] = Ok [1024]
  /\ pruned_coeffs [1024; 0x1p-40] true 1 = [1024; 0x1p-40]
  /\ exists f,
       from_chebcoeff (E := Reference.extern) [1024; 0x1p-40] (-1, 1) true 1 = Ok f
       /\ size f = 2%nat.
Proof.
  split; [reflexivity|]. split; [reflexivity|].
  eexists. split; [vm_compute; reflexivity | reflexivity].
Qed.

(** ** Operators *)

Lemma skipn_zeros (k len : nat) :
  skipn k (Np.zeros len) = Np.zeros (len - k).
Proof.
  unfold Np.zeros. revert k. induction len as [|len IH]; intros [|k]; simpl; auto.
Qed.

Lemma set_prefix_pad (small : list float) (len : nat) :
  (length small <= len)%nat ->
  Np.set_prefix (Np.zeros len) small = Ok (Spec.pad small len).
Proof.
  intros H. unfold Np.set_prefix, Spec.pad.
  replace (length (Np.zeros len)) with len by (unfold Np.zeros; now rewrite repeat_length).
  destruct (Nat.leb_spec (length small) len); [|lia].
  now rewrite skipn_zeros.
Qed.

Lemma same_domain_ext (f g g' : Fun) :
  _domain g' = _domain g -> same_domain f g' = same_domain f g.
Proof. intros H. unfold same_domain. now rewrite H. Qed.

Section Arithmetic.

Context {E : Extern}.

Lemma neg_ok (g : Fun) :
  constructed g ->
  exists ng, __neg__ g = Ok ng /\ _domain ng = _domain g
             /\ _values ng = map opp (_values g) /\ constructed ng.
Proof.
  intros Hg. destruct (constructed_inv Hg) as (Hne & _ & _).
  unfold __neg__, from_data, values, domain.
  destruct (@init_ok E (map opp (_values g)) (_domain g) None)
    as (ng & Hng & Hv & Hd & _).
  { destruct (_values g); [congruence | discriminate]. }
  exists ng. repeat split; auto.
  exists (map opp (_values g)), (_domain g), None. exact Hng.
Qed.

Lemma add_mismatch (f g : Fun) :
  same_domain f g = false ->
  __add__ f (AFun g) = Raise (DomainMismatch (domain f) (domain g)).
Proof.
  intros H. unfold __add__, cast_scalar. now rewrite H.
Qed.

Lemma sub_mismatch (f g : Fun) :
  constructed g -> same_domain f g = false ->
  __sub__ f (AFun g) = Raise (DomainMismatch (domain f) (domain g)).
Proof.
  intros Hg H. unfold __sub__, cast_scalar.
  destruct (neg_ok Hg) as (ng & Hng & Hd & _).
  rewrite Hng. cbn [bind].
  rewrite add_mismatch by (now rewrite (@same_domain_ext f g ng Hd)).
  unfold domain. now rewrite Hd.
Qed.

Lemma add_operator_mismatch (op : float -> float -> float) (f g : Fun) :
  same_domain f g = false ->
  _add_operator op f (AFun g) = Raise (DomainMismatch (domain f) (domain g)).
Proof.
  intros H. unfold _add_operator, cast_scalar. now rewrite H.
Qed.

End Arithmetic.

(** C9. [==] between two Funs whose domains differ does not return a boolean:
    the subtraction behind it raises [DomainMismatch]. *)
Theorem eq_domain_mismatch {E : Extern} (f g : Fun) :
  constructed g ->
  same_domain f g = false ->
  __eq__ f (AFun g) = Raise (DomainMismatch (domain f) (domain g))
  /\ forall b, __eq__ f (AFun g) <> Ok b.
Proof.
  intros Hg H. unfold __eq__. rewrite (sub_mismatch f Hg H). cbn [bind].
  split; [reflexivity | discriminate].
Qed.

(** C5. Between two Funs whose domains differ, every binary operator raises
    [DomainMismatch] and returns no Fun; when the domains agree, addition
    adds the coefficient vectors after padding the shorter one with zeros to
    the length of the longer, and builds the result from that sum. *)
Theorem binary_operators_domain {E : Extern} {L : ExternLaws E} (f g : Fun) :
  constructed f -> constructed g ->
  (same_domain f g = false ->
   let mismatch := Raise (DomainMismatch (domain f) (domain g)) in
   __add__ f (AFun g) = mismatch
   /\ __radd__ f (AFun g) = mismatch
   /\ __sub__ f (AFun g) = mismatch
   /\ __rsub__ f (AFun g) = mismatch
   /\ __mul__ f (AFun g) = mismatch
   /\ __rmul__ f (AFun g) = mismatch
   /\ __div__ f (AFun g) = mismatch
   /\ __truediv__ f (AFun g) = mismatch
   /\ __rdiv__ f (AFun g) = mismatch
   /\ __rtruediv__ f (AFun g) = mismatch
   /\ forall power, __pow__ power f (AFun g) = mismatch)
  /\ (same_domain f g = true ->
      exists cf cg h,
        chebyshev_coefficients f = Ok cf /\ length cf = size f
        /\ chebyshev_coefficients g = Ok cg /\ length cg = size g
        /\ length (Spec.padded_sum cf cg) = Nat.max (size f) (size g)
        /\ __add__ f (AFun g)
           = from_chebcoeff (Spec.padded_sum cf cg) (domain f) true
                            (Np.maximum (_vscale f) (_vscale g))
        /\ __add__ f (AFun g) = Ok h
        /\ domain h = domain f).
Proof.
  intros Hf Hg. split.
  - intros H mismatch. subst mismatch.
    unfold __radd__, __rsub__, __rmul__, __truediv__, __rtruediv__,
      __mul__, __div__, __rdiv__, __pow__.
    rewrite (sub_mismatch f Hg H), (add_mismatch f g H). cbn [bind].
    repeat split; try (now apply add_operator_mismatch).
    intros power. now apply add_operator_mismatch.
  - intros H.
    destruct (chebyshev_coefficients_ok Hf) as (cf & Hcf & Hlf).
    destruct (chebyshev_coefficients_ok Hg) as (cg & Hcg & Hlg).
    assert (Hpos : (0 < length cf)%nat).
    { destruct (constructed_inv Hf) as (Hne & Hsz & _).
      rewrite Hlf, Hsz. destruct (_values f); [congruence | simpl; lia]. }
    assert (Hlen : length (Spec.padded_sum cf cg) = Nat.max (size f) (size g)).
    { unfold Spec.padded_sum, Spec.pad, Np.zeros.
      destruct (Nat.ltb_spec (length cf) (length cg));
        rewrite map2_length, length_app, repeat_length; lia. }
    assert (Hadd : __add__ f (AFun g)
                   = from_chebcoeff (Spec.padded_sum cf cg) (domain f) true
                                    (Np.maximum (_vscale f) (_vscale g))).
    { unfold __add__, cast_scalar. rewrite H. cbn [negb].
      unfold Spec.padded_sum. rewrite <- Hlf, <- Hlg.
      destruct (Z.ltb_spec 0 (Z.of_nat (length cg) - Z.of_nat (length cf)));
        cbn [negb].
      - rewrite Hcf, Hcg. cbn [bind].
        rewrite set_prefix_pad by lia. cbn [bind Np.max fold_left].
        destruct (Nat.ltb_spec (length cf) (length cg)); [reflexivity | lia].
      - rewrite Hcg, Hcf. cbn [bind].
        rewrite set_prefix_pad by lia. cbn [bind Np.max fold_left].
        destruct (Nat.ltb_spec (length cf) (length cg)); [lia | reflexivity]. }
    destruct (@from_chebcoeff_ok E L (Spec.padded_sum cf cg) (domain f) true
                (Np.maximum (_vscale f) (_vscale g)))
      as (h & Hh & _ & Hd & _).
    { intros H0. rewrite H0 in Hlen. simpl in Hlen. lia. }
    exists cf, cg, h. rewrite Hadd. repeat split; auto.
Qed.

Lemma eq_domain_mismatch_witness :
  exists f g,
    init (E := Reference.extern) [1; 2] (-1, 1) None = Ok f
    /\ init (E := Reference.extern) [3] (0, 1) None = Ok g
    /\ same_domain f g = false
    /\ __eq__ (E := Reference.extern) f (AFun g)
       = Raise (DomainMismatch (-1, 1) (0, 1)).
Proof.
  eexists. eexists.
  split; [vm_compute; reflexivity|].
  split; [vm_compute; reflexivity|].
  split; [reflexivity|].
  apply (@eq_domain_mismatch Reference.extern).
  - exists [3], (0, 1), None. vm_compute. reflexivity.
  - reflexivity.
Defined.

Lemma binary_operators_domain_witness :
  exists f g g',
    init (E := Reference.extern) [1; 2] (-1, 1) None = Ok f
    /\ init (E := Reference.extern) [3] (0, 1) None = Ok g
    /\ init (E := Reference.extern) [3; 4; 5] (-1, 1) None = Ok g'
    /\ same_domain f g = false
    /\ __add__ (E := Reference.extern) f (AFun g)
       = Raise (DomainMismatch (-1, 1) (0, 1))
    /\ __mul__ (E := Reference.extern) f (AFun g)
       = Raise (DomainMismatch (-1, 1) (0, 1))
    /\ same_domain f g' = true
    /\ exists h, __add__ (E := Reference.extern) f (AFun g') = Ok h
                 /\ domain h = (-1, 1).
Proof.
  eexists. eexists. eexists.
  split; [vm_compute; reflexivity|].
  split; [vm_compute; reflexivity|].
  split; [vm_compute; reflexivity|].
  split; [reflexivity|].
  match goal with
  | |- __add__ ?f (AFun ?g) = _ /\ _ /\ _ /\ (exists h, __add__ _ (AFun ?g') = _ /\ _) =>
      assert (Hf : constructed (E := Reference.extern) f)
        by (exists [1; 2], (-1, 1), None; vm_compute; reflexivity);
      assert (Hg : constructed (E := Reference.extern) g)
        by (exists [3], (0, 1), None; vm_compute; reflexivity);
      assert (Hg' : constructed (E := Reference.extern) g')
        by (exists [3; 4; 5], (-1, 1), None; vm_compute; reflexivity);
      destruct (@binary_operators_domain Reference.extern reference_laws f g Hf Hg)
        as [Hmis _];
      destruct (@binary_operators_domain Reference.extern reference_laws f g' Hf Hg')
        as [_ Hsame]
  end.
  destruct (Hmis eq_refl) as (Hadd & _ & _ & _ & Hmul & _).
  destruct (Hsame eq_refl) as (cf & cg & h & _ & _ & _ & _ & _ & _ & Hh & Hd).
  split; [exact Hadd|]. split; [exact Hmul|]. split; [reflexivity|].
  exists h. split; [exact Hh | exact Hd].
Defined.

(** ** The adaptive sampler *)

Lemma interpolation_points_length {E : Extern} (N : nat) :
  length (interpolation_points N) = N.
Proof.
  unfold interpolation_points.
  destruct (Nat.eqb_spec N 1) as [->|_]; [reflexivity|].
  now rewrite length_map, length_seq.
Qed.

Lemma forallb_map {A B} (q : B -> bool) (g : A -> B) (l : list A) :
  forallb q (map g l) = forallb (fun x => q (g x)) l.
Proof. induction l as [|x l IH]; simpl; [reflexivity | now rewrite IH]. Qed.

Section Dichotomy.

Context {E : Extern} {L : ExternLaws E}.

Variable f : float -> float.

Lemma coeffs_at_ok (k : nat) :
  chebpolyfit (map f (interpolation_points (2 ^ k + 1))) = Ok (coeffs_at f k)
  /\ length (coeffs_at f k) = (2 ^ k + 1)%nat.
Proof.
  unfold coeffs_at.
  destruct (@chebpolyfit_ok E L (map f (interpolation_points (2 ^ k + 1))))
    as (c & Hc & Hl).
  { intros H0. apply (f_equal (@length float)) in H0.
    rewrite length_map, interpolation_points_length in H0. simpl in H0. lia. }
  rewrite Hc. split; [reflexivity|].
  now rewrite Hl, length_map, interpolation_points_length.
Qed.

Lemma max_abs_ok (k : nat) :
  exists m, Np.max (map abs (coeffs_at f k)) = Ok m.
Proof.
  destruct (coeffs_at_ok k) as [_ Hl].
  destruct (coeffs_at f k); [simpl in Hl; lia|].
  cbn [map Np.max]. eauto.
Qed.

(** One pass of the loop: the fit at [2^k + 1] points, its threshold and the
    magnitudes of its last two coefficients. *)
Lemma dichotomy_step_ok (k : nat) :
  exists m,
    Np.max (map abs (coeffs_at f k)) = Ok m
    /\ dichotomy_step f k
       = Ok (MkAttempt (coeffs_at f k) (128 * emach * m)
                       (map abs (Np.last_two (coeffs_at f k))))
    /\ within_bound (MkAttempt (coeffs_at f k) (128 * emach * m)
                               (map abs (Np.last_two (coeffs_at f k))))
       = Spec.tail_negligible (coeffs_at f k).
Proof.
  destruct (max_abs_ok k) as (m & Hm). exists m. split; [exact Hm|].
  unfold dichotomy_step, sample_function.
  rewrite (proj1 (coeffs_at_ok k)). cbn [bind]. rewrite Hm. cbn [bind].
  split; [reflexivity|].
  unfold within_bound, Spec.tail_negligible. cbn [att_bnd att_last].
  rewrite Hm. apply forallb_map.
Qed.

(** The loop stops at the first pass whose tail is negligible. *)
Lemma dichotomy_loop_stops (rnc : bool) (count k i : nat) (prev : option attempt) :
  (i < count)%nat ->
  Spec.tail_negligible (coeffs_at f (k + i)) = true ->
  (forall j, (j < i)%nat -> Spec.tail_negligible (coeffs_at f (k + j)) = false) ->
  dichotomy_loop f k count prev rnc = Ok (coeffs_at f (k + i)).
Proof.
  revert k i prev. induction count as [|count IH]; intros k i prev Hi Hyes Hno; [lia|].
  cbn [dichotomy_loop].
  destruct (dichotomy_step_ok k) as (m & _ & Hstep & Hwb).
  rewrite Hstep. cbn [bind]. rewrite Hwb.
  destruct i as [|i].
  - rewrite Nat.add_0_r in Hyes. rewrite Hyes. cbn [att_coeffs].
    now rewrite Nat.add_0_r.
  - rewrite <- (Nat.add_0_r k) at 1. rewrite (Hno 0%nat) by lia.
    replace (k + S i)%nat with (S k + i)%nat by lia.
    apply IH; [lia | now replace (S k + i)%nat with (k + S i)%nat by lia |].
    intros j Hj. replace (S k + j)%nat with (k + S j)%nat by lia.
    apply Hno. lia.
Qed.

(** A loop that never stops ends in its [else] clause with what the last
    pass left. *)
Lemma dichotomy_loop_exhausted (rnc : bool) (count k : nat) (prev : option attempt) :
  (forall j, (j < S count)%nat -> Spec.tail_negligible (coeffs_at f (k + j)) = false) ->
  exists m,
    Np.max (map abs (coeffs_at f (k + count))) = Ok m
    /\ dichotomy_loop f k (S count) prev rnc
       = if rnc
         then Raise (NoConvergence (map abs (Np.last_two (coeffs_at f (k + count))))
                                   (128 * emach * m))
         else Ok (coeffs_at f (k + count)).
Proof.
  revert k prev. induction count as [|count IH]; intros k prev Hno.
  - destruct (dichotomy_step_ok k) as (m & Hm & Hstep & Hwb).
    exists m. rewrite Nat.add_0_r. split; [exact Hm|].
    cbn [dichotomy_loop]. rewrite Hstep. cbn [bind]. rewrite Hwb.
    rewrite <- (Nat.add_0_r k) at 1. rewrite (Hno 0%nat) by lia.
    reflexivity.
  - destruct (dichotomy_step_ok k) as (m0 & _ & Hstep & Hwb).
    destruct (IH (S k)
                 (Some (MkAttempt (coeffs_at f k) (128 * emach * m0)
                                  (map abs (Np.last_two (coeffs_at f k))))))
      as (m & Hm & Hloop).
    { intros j Hj. replace (S k + j)%nat with (k + S j)%nat by lia. apply Hno. lia. }
    exists m. replace (k + S count)%nat with (S k + count)%nat by lia.
    split; [exact Hm|]. rewrite <- Hloop.
    change (dichotomy_loop f k (S (S count)) prev rnc)
      with (a <- dichotomy_step f k ;;
            if within_bound a then Ok (att_coeffs a)
            else dichotomy_loop f (S k) (S count) (Some a) rnc).
    rewrite Hstep. cbn [bind]. rewrite Hwb.
    rewrite <- (Nat.add_0_r k) at 1. rewrite (Hno 0%nat) by lia.
    reflexivity.
Qed.

(** Whatever the loop returns is the fit of one of its passes, or what the
    previous pass left. *)
Lemma dichotomy_loop_nonempty (rnc : bool) (count k : nat) (prev : option attempt)
      (c : list float) :
  (forall a, prev = Some a -> att_coeffs a <> []) ->
  dichotomy_loop f k count prev rnc = Ok c -> c <> [].
Proof.
  revert k prev. induction count as [|count IH]; intros k prev Hprev; cbn [dichotomy_loop].
  - destruct prev as [a|]; [|discriminate].
    destruct rnc; [discriminate|]. intros [= <-]. now apply Hprev.
  - destruct (dichotomy_step_ok k) as (m & _ & Hstep & _).
    assert (Hne : coeffs_at f k <> []).
    { destruct (coeffs_at_ok k) as [_ Hl]. intros H0. rewrite H0 in Hl. simpl in Hl. lia. }
    rewrite Hstep. cbn [bind].
    destruct (within_bound _).
    + intros [= <-]. exact Hne.
    + apply IH. intros a [= <-]. exact Hne.
Qed.

End Dichotomy.

(** C1. For [kmin < kmax], [dichotomy] returns the coefficients obtained at
    the first [k] in [kmin .. kmax - 1] for which, sampling [f] at [2^k + 1]
    Chebyshev points, the last two coefficients are at most
    [128 * emach * max |coeffs|] in magnitude; when no [k] of the range
    qualifies and convergence is required, it raises [NoConvergence] with the
    magnitudes of the last tail checked and the threshold. *)
Theorem dichotomy_first_negligible_tail {E : Extern} {L : ExternLaws E}
        (f : float -> float) (kmin kmax : nat) :
  (kmin < kmax)%nat ->
  (forall k,
      chebpolyfit (map f (interpolation_points (2 ^ k + 1))) = Ok (coeffs_at f k)
      /\ length (coeffs_at f k) = (2 ^ k + 1)%nat)
  /\ (forall k rnc,
        (kmin <= k < kmax)%nat ->
        Spec.tail_negligible (coeffs_at f k) = true ->
        (forall j, (kmin <= j < k)%nat ->
                   Spec.tail_negligible (coeffs_at f j) = false) ->
        dichotomy f kmin kmax rnc = Ok (coeffs_at f k))
  /\ ((forall j, (kmin <= j < kmax)%nat ->
                 Spec.tail_negligible (coeffs_at f j) = false) ->
      exists m,
        Np.max (map abs (coeffs_at f (kmax - 1))) = Ok m
        /\ dichotomy f kmin kmax true
           = Raise (NoConvergence
                      (map abs (Np.last_two (coeffs_at f (kmax - 1))))
                      (128 * emach * m))).
Proof.
  intros Hk. split; [intros k; apply coeffs_at_ok|]. split.
  - intros k rnc Hr Hyes Hno. unfold dichotomy.
    replace k with (kmin + (k - kmin))%nat by lia.
    apply dichotomy_loop_stops; [lia | now replace (kmin + (k - kmin))%nat with k by lia |].
    intros j Hj. apply Hno. lia.
  - intros Hno. unfold dichotomy.
    replace (kmax - kmin)%nat with (S (kmax - kmin - 1)) by lia.
    destruct (@dichotomy_loop_exhausted E L f true (kmax - kmin - 1) kmin None)
      as (m & Hm & Hloop).
    { intros j Hj. apply Hno. lia. }
    replace (kmin + (kmax - kmin - 1))%nat with (kmax - 1)%nat in * by lia.
    exists m. split; [exact Hm | exact Hloop].
Qed.

Lemma dichotomy_first_negligible_tail_witness :
  (0 < 3)%nat
  /\ dichotomy (E := Reference.extern) (fun x => x * x) 0 3 true
     = Ok (coeffs_at (E := Reference.extern) (fun x => x * x) 2)
  /\ (0 < 2)%nat
  /\ dichotomy (E := Reference.extern) (fun x => x * x) 0 2 true
     = Raise (NoConvergence [0; 0.5] 0x1p-46).
Proof.
  split; [lia|].
  destruct (@dichotomy_first_negligible_tail Reference.extern reference_laws
              (fun x => x * x) 0 3) as (_ & Hstop & _); [lia|].
  destruct (@dichotomy_first_negligible_tail Reference.extern reference_laws
              (fun x => x * x) 0 2) as (_ & _ & Hraise); [lia|].
  split.
  { apply Hstop; [lia | vm_compute; reflexivity |].
    intros [|[|j]] Hj; [vm_compute; reflexivity | vm_compute; reflexivity | lia]. }
  split; [lia|].
  destruct Hraise as (m & Hm & Hr).
  { intros [|[|j]] Hj; [vm_compute; reflexivity | vm_compute; reflexivity | lia]. }
  rewrite Hr. vm_compute in Hm. injection Hm as <-. vm_compute. reflexivity.
Defined.

(** ** Restriction *)

Lemma init_domain {E : Extern} (values : list float) (d : interval)
      (vscale : option float) (g : Fun) :
  init values d vscale = Ok g -> _domain g = d.
Proof.
  unfold init.
  destruct (match vscale with Some v => Ok v | None => Np.max (map abs values) end);
    cbn [bind]; [|discriminate].
  destruct (interpolator _ _); cbn [bind]; [|discriminate].
  now intros [= <-].
Qed.

Lemma from_chebcoeff_domain {E : Extern} (coeffs : list float) (d : interval)
      (prune : bool) (vscale : float) (g : Fun) :
  from_chebcoeff coeffs d prune vscale = Ok g -> domain g = d.
Proof.
  unfold from_chebcoeff.
  destruct (chebpolyval _); cbn [bind]; [|discriminate].
  apply init_domain.
Qed.

(** C7, as the code has it.  [restrict] raises [ValueError] with the
    offending bounds when [c >= d], when [c] lies left of the domain and when
    [d] lies right of it; otherwise it is the adaptive refit of the Fun on
    [[c, d]]: a Fun on that sub-domain when the dichotomy converges, and the
    [NoConvergence] error of the dichotomy when it does not. *)
Theorem restrict_bounds {E : Extern} {L : ExternLaws E} (f : Fun) (c d : float) :
  let a := fst (domain f) in
  let b := snd (domain f) in
  let refit :=
    dichotomy (fun t => call f (0.5 * (d - c) * t + 0.5 * (c + d))) 2 12 true in
  ((d <=? c) = true -> restrict f [c; d] = Raise (ValueError [c; d]))
  /\ ((d <=? c) = false -> (c <? a) = true ->
      restrict f [c; d] = Raise (ValueError [c; a]))
  /\ ((d <=? c) = false -> (c <? a) = false -> (b <? d) = true ->
      restrict f [c; d] = Raise (ValueError [d; b]))
  /\ ((d <=? c) = true \/ (c <? a) = true \/ (b <? d) = true ->
      exists args, restrict f [c; d] = Raise (ValueError args)
                   /\ (In c args \/ In d args))
  /\ ((d <=? c) = false -> (c <? a) = false -> (b <? d) = false ->
      restrict f [c; d] = from_function (call f) (c, d) None
      /\ restrict f [c; d]
         = (coeffs <- refit ;; from_chebcoeff coeffs (c, d) true 1)
      /\ (forall coeffs, refit = Ok coeffs ->
            exists g, restrict f [c; d] = Ok g /\ domain g = (c, d))
      /\ (forall e, refit = Raise e -> restrict f [c; d] = Raise e)).
Proof.
  intros a b refit. subst a b. unfold restrict, domain.
  repeat split.
  - intros ->. reflexivity.
  - intros -> ->. reflexivity.
  - intros -> -> ->. reflexivity.
  - intros H.
    destruct (d <=? c); [eexists; split; [reflexivity | simpl; auto]|].
    destruct (c <? fst (_domain f)); [eexists; split; [reflexivity | simpl; auto]|].
    destruct (snd (_domain f) <? d); [eexists; split; [reflexivity | simpl; auto]|].
    destruct H as [H|[H|H]]; discriminate.
  - now rewrite H, H0, H1.
  - now rewrite H, H0, H1.
  - intros coeffs Hc. rewrite H, H0, H1.
    unfold from_function. fold refit. rewrite Hc. cbn [bind].
    destruct (@from_chebcoeff_ok E L coeffs (c, d) true 1) as (g & Hg & _ & Hd & _).
    { apply (@dichotomy_loop_nonempty E L
               (fun t => call f (0.5 * (d - c) * t + 0.5 * (c + d)))
               true 10 2 None coeffs); [discriminate | exact Hc]. }
    exists g. split; [exact Hg | exact Hd].
  - intros e He. rewrite H, H0, H1.
    unfold from_function. fold refit. now rewrite He.
Qed.

Lemma restrict_bounds_witness :
  exists f,
    init (E := Reference.extern) [1; 2] (-1, 1) None = Ok f
    /\ restrict (E := Reference.extern) f [2; 1] = Raise (ValueError [2; 1])
    /\ restrict (E := Reference.extern) f [-2; 0] = Raise (ValueError [-2; -1])
    /\ restrict (E := Reference.extern) f [0; 2] = Raise (ValueError [2; 1])
    /\ exists g, restrict (E := Reference.extern) f [0; 0.5] = Ok g
                 /\ domain g = (0, 0.5).
Proof.
  eexists. split; [vm_compute; reflexivity|].
  match goal with
  | |- restrict ?f _ = _ /\ _ =>
      pose proof (@restrict_bounds Reference.extern reference_laws f 2 1) as (H1 & _);
      pose proof (@restrict_bounds Reference.extern reference_laws f (-2) 0) as (_ & H2 & _);
      pose proof (@restrict_bounds Reference.extern reference_laws f 0 2) as (_ & _ & H3 & _);
      pose proof (@restrict_bounds Reference.extern reference_laws f 0 0.5)
        as (_ & _ & _ & _ & H4)
  end.
  split; [exact (H1 eq_refl)|].
  split; [exact (H2 eq_refl eq_refl)|].
  split; [exact (H3 eq_refl eq_refl eq_refl)|].
  destruct (H4 eq_refl eq_refl eq_refl) as (_ & _ & Hok & _).
  eapply Hok. vm_compute. reflexivity.
Defined.

(** C7, as stated, fails.  A Fun of 2049 nodes that is 1 at the first node
    and 0 at the others has a coefficient vector without a negligible tail;
    restricting it to its whole domain passes the three checks on the bounds
    and exhausts the dichotomy, so [restrict] raises [NoConvergence] and
    returns no Fun. *)
Lemma restrict_no_convergence :
  exists f last bnd,
    init (E := Reference.extern) (1 :: repeat 0 2048) (-1, 1) None = Ok f
    /\ (1 <=? -1) = false
    /\ (-1 <? fst (domain f)) = false
    /\ (snd (domain f) <? 1) = false
    /\ restrict (E := Reference.extern) f [-1; 1]
       = Raise (NoConvergence last bnd).
Proof.
  eexists. eexists. eexists.
  split; [vm_compute; reflexivity|].
  split; [reflexivity|]. split; [reflexivity|]. split; [reflexivity|].
  vm_compute. reflexivity.
Qed.

(** ** Rootfinding *)

Section Roots.

Context {E : Extern} {L : ExternLaws E}.

(** The colleague matrix needs at least three coefficients: with one or two,
    the assignment [v[1] = 0.5] falls outside [v]. *)
Lemma roots_small_index_error (eigvals : matrix -> list complex) (fuel : nat)
      (f : Fun) :
  constructed f -> (size f <= 2)%nat ->
  roots eigvals (S fuel) f = Raise IndexError.
Proof.
  intros Hf Hsz. cbn [roots].
  destruct (Nat.leb_spec (size f) 100); [|lia].
  destruct (chebyshev_coefficients_ok Hf) as (ak & Hak & Hl).
  rewrite Hak. cbn [bind].
  unfold Np.setitem.
  change 1%Z with (Z.of_nat 1).
  rewrite index_out_of_range; [reflexivity|].
  unfold Np.zeros. rewrite repeat_length, removelast_firstn_len, length_firstn. lia.
Qed.

End Roots.

(** C3, at the identity.  [roots] of the Fun of [x] raises [IndexError]
    instead of returning [[0.0]]: the Fun has two nodes, so the vector [v]
    of the colleague matrix has one entry and [v[1] = 0.5] is out of
    range. *)
Theorem roots_identity_index_error {E : Extern} {L : ExternLaws E}
        (eigvals : matrix -> list complex) (fuel : nat) (d : interval) :
  exists f,
    identity d = Ok f
    /\ values f = [snd d; fst d]
    /\ size f = 2%nat
    /\ roots eigvals (S fuel) f = Raise IndexError.
Proof.
  unfold identity, from_data.
  destruct (@init_ok E [snd d; fst d] d None) as (f & Hf & Hv & _ & Hn & _);
    [discriminate|].
  exists f. split; [exact Hf|]. split; [exact Hv|].
  assert (Hs : size f = 2%nat) by exact Hn.
  split; [exact Hs|].
  apply roots_small_index_error; [|lia].
  exists [snd d; fst d], d, None. exact Hf.
Qed.

Lemma roots_identity_index_error_witness :
  exists f,
    identity (E := Reference.extern) (-1, 1) = Ok f
    /\ values f = [1; -1]
    /\ roots (E := Reference.extern) (fun _ => []) 1 f = Raise IndexError.
Proof.
  destruct (@roots_identity_index_error Reference.extern reference_laws
              (fun _ => []) 0 (-1, 1)) as (f & Hf & Hv & _ & Hr).
  exists f. split; [exact Hf|]. split; [exact Hv | exact Hr].
Defined.

(** ** Integration *)

Lemma same_domain_domains (f g f' g' : Fun) :
  _domain f = _domain f' -> _domain g = _domain g' ->
  same_domain f g = same_domain f' g'.
Proof. intros H1 H2. unfold same_domain. now rewrite H1, H2. Qed.

Section Integration.

Context {E : Extern} {L : ExternLaws E}.

(** Subtracting a scalar [v] from a Fun [A]: the coefficient vector of [A]
    with [-v] added to its first entry, rebuilt (and pruned) at the scale
    [max (vscale A) |v|]. *)
Lemma sub_scalar (A : Fun) (v : float) :
  constructed A -> same_domain A A = true ->
  exists cA,
    chebyshev_coefficients A = Ok cA
    /\ (1 <= length cA)%nat
    /\ __sub__ A (Scalar v)
       = from_chebcoeff (Np.map2 add cA (Spec.pad [- v] (length cA)))
                        (domain A) true
                        (Np.maximum (_vscale A) (abs (- v))).
Proof.
  intros HA Hdom.
  destruct (chebyshev_coefficients_ok HA) as (cA & HcA & Hl).
  assert (Hpos : (1 <= size A)%nat).
  { destruct (constructed_inv HA) as (Hne & Hsz & _). rewrite Hsz.
    destruct (_values A); [congruence | simpl; lia]. }
  exists cA. split; [exact HcA|]. split; [lia|].
  unfold __sub__, cast_scalar.
  destruct (@init_ok E [v] (domain A) None) as (o & Ho & Hov & Hod & _);
    [discriminate|].
  rewrite Ho. cbn [bind].
  unfold __neg__, from_data, values. rewrite Hov. cbn [map].
  destruct (@init_ok E [- v] (domain o) None)
    as (ng & Hng & Hnv & Hnd & Hnn & _ & _ & _ & Hns); [discriminate|].
  rewrite Hng. cbn [bind].
  cbn [map Np.max fold_left] in Hns. injection Hns as Hns.
  unfold __add__, cast_scalar.
  rewrite (@same_domain_domains A ng A A eq_refl)
    by (rewrite Hnd; unfold domain; rewrite Hod; reflexivity).
  rewrite Hdom. cbn [negb].
  assert (Hsz : size ng = 1%nat) by exact Hnn.
  rewrite Hsz.
  destruct (Z.ltb_spec 0 (Z.of_nat 1 - Z.of_nat (size A))); [lia|].
  cbn [negb].
  unfold chebyshev_coefficients at 1. unfold values. rewrite Hnv.
  cbn [chebpolyfit length Nat.eqb bind].
  rewrite HcA. cbn [bind].
  rewrite set_prefix_pad by (simpl; lia). cbn [bind Np.max fold_left].
  now rewrite <- Hns.
Qed.

End Integration.

(** C6, as the code has it.  [integrate] builds the antiderivative Fun [A]
    from the scaled [chebint] coefficients and returns [A - A(a)], computed by
    Fun subtraction: the coefficients of [A] with [A(a)] subtracted from the
    first one, pruned again at the scale [max(1, |A(a)|)] and turned back
    into values. *)
Theorem integrate_subtracts_left_value {E : Extern} {L : ExternLaws E} (f : Fun) :
  constructed f -> same_domain f f = true ->
  let a := fst (domain f) in
  let b := snd (domain f) in
  exists coeffs A cA r,
    chebyshev_coefficients f = Ok coeffs
    /\ from_chebcoeff (map (fun c => 0.5 * (b - a) * c) (chebint coeffs))
                      (domain f) true 1 = Ok A
    /\ chebyshev_coefficients A = Ok cA
    /\ integrate f
       = from_chebcoeff (Np.map2 add cA (Spec.pad [- call A a] (length cA)))
                        (domain f) true
                        (Np.maximum 1 (abs (- call A a)))
    /\ integrate f = Ok r
    /\ domain r = domain f.
Proof.
  intros Hf Hdom a b.
  destruct (chebyshev_coefficients_ok Hf) as (coeffs & Hc & Hl).
  assert (Hne : coeffs <> []).
  { destruct (constructed_inv Hf) as (Hv & Hsz & _).
    intros H0. rewrite H0 in Hl. simpl in Hl.
    rewrite Hsz in Hl. destruct (_values f); [congruence | discriminate]. }
  destruct (@from_chebcoeff_ok E L
              (map (fun c => 0.5 * (b - a) * c) (chebint coeffs)) (domain f) true 1)
    as (A & HA & _ & HAd & HAs & _ & HAc).
  { intros H0. apply map_eq_nil in H0. revert H0. now apply chebint_nonempty. }
  destruct (@sub_scalar E L A (call A a) HAc) as (cA & HcA & HlA & Hsub).
  { rewrite (@same_domain_domains A A f f); auto. }
  assert (Hint : integrate f = __sub__ A (Scalar (call A a))).
  { unfold integrate. rewrite Hc. cbn [bind].
    subst a b. destruct (domain f) as [a0 b0] eqn:Hd. cbn [fst snd] in *.
    rewrite HA. cbn [bind]. reflexivity. }
  rewrite Hsub, HAd, HAs in Hint.
  destruct (@from_chebcoeff_ok E L
              (Np.map2 add cA (Spec.pad [- call A a] (length cA))) (domain f) true
              (Np.maximum 1 (abs (- call A a))))
    as (r & Hr & _ & Hrd & _).
  { intros H0. apply (f_equal (@length float)) in H0.
    rewrite map2_length in H0. unfold Spec.pad in H0.
    rewrite length_app in H0. simpl in H0. lia. }
  exists coeffs, A, cA, r. rewrite Hint. repeat split; auto.
Qed.

Lemma integrate_subtracts_left_value_witness :
  exists f,
    init (E := Reference.extern) [3; 1] (-1, 1) None = Ok f
    /\ same_domain f f = true
    /\ exists r, integrate (E := Reference.extern) f = Ok r
                 /\ domain r = (-1, 1).
Proof.
  eexists.
  split; [vm_compute; reflexivity|]. split; [reflexivity|].
  match goal with
  | |- exists r, integrate ?f = _ /\ _ =>
      destruct (@integrate_subtracts_left_value Reference.extern reference_laws f)
        as (coeffs & A & cA & r & _ & _ & _ & _ & Hr & Hd);
      [exists [3; 1], (-1, 1), None; vm_compute; reflexivity | reflexivity |]
  end.
  exists r. split; [exact Hr | rewrite Hd; reflexivity].
Defined.

(** C6, as stated, fails.  For [f(x) = 2^20 + 2^-28 x] on [[-1, 1]] the
    antiderivative has the coefficients [2^-30, 2^20, 2^-30]; subtracting
    its value at [-1] raises the scale to about [2^20], the last coefficient
    falls under the threshold and is pruned, and the result takes the value
    [-2^-30] at the left endpoint, not 0. *)
Lemma integrate_left_value_nonzero :
  exists f r,
    init (E := Reference.extern) [0x1p20 + 0x1p-28; 0x1p20 - 0x1p-28] (-1, 1) None
    = Ok f
    /\ chebyshev_coefficients (E := Reference.extern) f = Ok [0x1p20; 0x1p-28]
    /\ integrate (E := Reference.extern) f = Ok r
    /\ call (E := Reference.extern) r (-1) = - 0x1p-30
    /\ (call (E := Reference.extern) r (-1) =? 0) = false.
Proof.
  eexists. eexists.
  split; [vm_compute; reflexivity|].
  split; [vm_compute; reflexivity|].
  split; [vm_compute; reflexivity|].
  split; vm_compute; reflexivity.
Qed.

(** * Further properties *)

(** ** Construction *)

(** X1. The constructor needs at least one value: on an empty array it
    raises [ValueError] (from [np.max]) when no [vscale] is given and
    [IndexError] (from the first weight) when one is; on a non-empty array it
    returns a Fun that stores the values and the domain, has one node per
    value and takes its [vscale] from the argument or from the largest
    magnitude. *)
Theorem init_requires_values {E : Extern} (samples : list float) (d : interval)
        (vscale : option float) :
  (samples = [] ->
   init samples d vscale
   = Raise (match vscale with None => ValueError [] | Some _ => IndexError end))
  /\ (samples <> [] ->
      exists f,
        init samples d vscale = Ok f
        /\ values f = samples /\ domain f = d
        /\ size f = length samples
        /\ match vscale with
           | Some v => _vscale f = v
           | None => Np.max (map abs samples) = Ok (_vscale f)
           end).
Proof.
  split.
  - intros ->. destruct vscale; reflexivity.
  - intros Hne.
    destruct (@init_ok E samples d vscale Hne)
      as (f & Hf & Hv & Hd & Hn & _ & _ & _ & Hs).
    exists f. unfold values, domain, size. auto.
Qed.

(** X2. [from_fun] copies the values and the domain of a Fun but not its
    [vscale]: the copy has the largest magnitude of the values as its scale,
    whatever scale the original was built with. *)
Theorem from_fun_resets_vscale {E : Extern} (f : Fun) :
  constructed f ->
  exists g,
    from_fun f = Ok g
    /\ values g = values f /\ domain g = domain f /\ size g = size f
    /\ Np.max (map abs (values f)) = Ok (_vscale g).
Proof.
  intros Hf. destruct (constructed_inv Hf) as (Hne & Hsz & _).
  unfold from_fun, values, domain.
  destruct (@init_ok E (_values f) (_domain f) None Hne)
    as (g & Hg & Hv & Hd & Hn & _ & _ & _ & Hs).
  exists g. unfold size. rewrite Hn. fold (size f). auto.
Qed.

Lemma from_fun_resets_vscale_witness :
  exists f,
    from_chebcoeff (E := Reference.extern) [3] (-1, 1) true 1 = Ok f
    /\ _vscale f = 1
    /\ exists g, from_fun (E := Reference.extern) f = Ok g /\ _vscale g = 3.
Proof.
  eexists. split; [vm_compute; reflexivity|]. split; [reflexivity|].
  match goal with
  | |- exists g, from_fun ?f = _ /\ _ =>
      destruct (@from_fun_resets_vscale Reference.extern f)
        as (g & Hg & _ & _ & _ & Hs);
      [exists [3], (-1, 1), (Some 1); vm_compute; reflexivity|]
  end.
  exists g. split; [exact Hg|].
  vm_compute in Hs. injection Hs as Hs. symmetry. exact Hs.
Defined.

Lemma nth_tl {A} (l : list A) (i : nat) (d : A) :
  nth i (tl l) d = nth (S i) l d.
Proof. destruct l; destruct i; reflexivity. Qed.

Lemma nth_removelast {A} (l : list A) (i : nat) (d : A) :
  (i < length l - 1)%nat -> nth i (removelast l) d = nth i l d.
Proof.
  intros H. rewrite removelast_firstn_len, nth_firstn.
  destruct (Nat.ltb_spec i (Nat.pred (length l))); [reflexivity | lia].
Qed.

(** X3. For at least two samples [even_data] is the even extension of the
    docstring: it has length [2 (N - 1)], starts with the data, and entry
    [2 (N - 1) - i] mirrors entry [i] for every interior [i]. *)
Theorem even_data_mirror (data : list float) :
  (2 <= length data)%nat ->
  length (even_data data) = (2 * (length data - 1))%nat
  /\ firstn (length data) (even_data data) = data
  /\ forall i, (0 < i < length data - 1)%nat ->
       nth (2 * (length data - 1) - i) (even_data data) 0 = nth i data 0.
Proof.
  intros Hlen. unfold even_data. split; [|split].
  - rewrite length_app, inner_reversed_length. lia.
  - rewrite firstn_app, Nat.sub_diag, firstn_all. cbn [firstn]. apply app_nil_r.
  - intros i Hi.
    rewrite app_nth2 by lia.
    unfold Np.inner_reversed.
    assert (Hinner : length (tl (removelast data)) = (length data - 2)%nat).
    { rewrite length_tl, removelast_firstn_len, length_firstn. lia. }
    rewrite rev_nth by (rewrite Hinner; lia).
    rewrite Hinner, nth_tl, nth_removelast by lia.
    f_equal. lia.
Qed.

Lemma even_data_mirror_witness :
  (2 <= length [0; 1; 2; 3; 4])%nat
  /\ even_data [0; 1; 2; 3; 4] = [0; 1; 2; 3; 4; 3; 2; 1]
  /\ length (even_data [0; 1; 2; 3; 4]) = 8%nat.
Proof.
  split; [simpl; lia|]. split; [reflexivity|].
  destruct (@even_data_mirror [0; 1; 2; 3; 4]) as (Hl & _); [simpl; lia|].
  exact Hl.
Defined.

(** ** Restriction *)

(** X4. [restrict] returns a Fun only for a two-element sub-interval that
    passes the three checks, and the Fun it returns has that sub-interval as
    its domain; a sub-interval of any other length raises [ValueError]. *)
Theorem restrict_sound {E : Extern} (f : Fun) (subinterval : list float) :
  (forall g, restrict f subinterval = Ok g ->
     exists c d,
       subinterval = [c; d]
       /\ (d <=? c) = false
       /\ (c <? fst (domain f)) = false
       /\ (snd (domain f) <? d) = false
       /\ domain g = (c, d))
  /\ (length subinterval <> 2%nat ->
      restrict f subinterval = Raise (ValueError subinterval)).
Proof.
  split.
  - intros g. unfold restrict, domain.
    destruct subinterval as [|c [|d [|e t]]]; try discriminate.
    destruct (d <=? c) eqn:H1; [discriminate|].
    destruct (c <? fst (_domain f)) eqn:H2; [discriminate|].
    destruct (snd (_domain f) <? d) eqn:H3; [discriminate|].
    intros Hg. exists c, d. repeat split; auto.
    unfold from_function in Hg.
    destruct (dichotomy _ 2 12 true); cbn [bind] in Hg; [|discriminate].
    exact (from_chebcoeff_domain _ _ _ _ Hg).
  - intros Hlen. unfold restrict.
    destruct subinterval as [|c [|d [|e t]]]; try reflexivity.
    simpl in Hlen. lia.
Qed.

(** ** Pruning and construction from coefficients *)

Lemma highest_firstn_some (bnd : float) (coeffs : list float) (i : nat) :
  Spec.highest bnd coeffs = Some i ->
  Spec.highest bnd (firstn (S i) coeffs) = Some i.
Proof.
  revert i. induction coeffs as [|x t IH]; intros i; cbn [Spec.highest]; [discriminate|].
  destruct (Spec.highest bnd t) as [i'|] eqn:Ht.
  - intros [= <-]. rewrite firstn_cons. cbn [Spec.highest]. now rewrite (IH i').
  - destruct (Spec.reaches bnd x) eqn:Hx; [|discriminate].
    intros [= <-]. rewrite firstn_cons, firstn_O. cbn [Spec.highest]. now rewrite Hx.
Qed.

Lemma highest_firstn_none (bnd : float) (coeffs : list float) (n : nat) :
  Spec.highest bnd coeffs = None ->
  Spec.highest bnd (firstn n coeffs) = None.
Proof.
  revert n. induction coeffs as [|x t IH]; intros n H.
  - destruct n; reflexivity.
  - destruct n as [|n]; [reflexivity|].
    rewrite firstn_cons. cbn [Spec.highest] in H |- *.
    destruct (Spec.highest bnd t) eqn:Ht; [discriminate|].
    destruct (Spec.reaches bnd x) eqn:Hx; [discriminate|].
    now rewrite IH.
Qed.

(** X5. Pruning keeps a prefix of the coefficients, at least one of them
    when there is one, and is idempotent: pruning what is left at the same
    scale removes nothing more. *)
Theorem pruning_idempotent (coeffs : list float) (vscale : float) :
  let kept := pruned_coeffs coeffs true vscale in
  pruned_coeffs kept true vscale = kept
  /\ kept = firstn (length kept) coeffs
  /\ (length kept <= length coeffs)%nat
  /\ (coeffs <> [] -> (1 <= length kept)%nat).
Proof.
  intros kept. subst kept. split; [|split; [|split]].
  - rewrite !pruned_coeffs_prefix_kept.
    set (bnd := 128 * emach * vscale).
    destruct (Spec.highest bnd coeffs) as [i|] eqn:Hh.
    + assert (Hk : Spec.prefix_kept bnd coeffs = firstn (S i) coeffs)
        by (unfold Spec.prefix_kept; now rewrite Hh, Nat.add_1_r).
      rewrite Hk. unfold Spec.prefix_kept.
      rewrite (highest_firstn_some _ _ Hh). cbv beta iota.
      rewrite firstn_firstn. f_equal. lia.
    + assert (Hk : Spec.prefix_kept bnd coeffs = firstn 1 coeffs)
        by (unfold Spec.prefix_kept; now rewrite Hh).
      rewrite Hk. unfold Spec.prefix_kept.
      rewrite (highest_firstn_none _ _ 1 Hh). cbv beta iota.
      now rewrite firstn_firstn.
  - unfold pruned_coeffs. rewrite length_firstn.
    destruct (Nat.le_ge_cases (_cutoff coeffs vscale) (length coeffs)) as [H|H].
    + now rewrite Nat.min_l.
    + rewrite Nat.min_r, firstn_all by exact H. now apply firstn_all2.
  - unfold pruned_coeffs. rewrite length_firstn. lia.
  - intros Hne. pose proof (pruned_coeffs_nonempty true vscale Hne) as H.
    destruct (pruned_coeffs coeffs true vscale); [congruence | simpl; lia].
Qed.

Lemma from_chebcoeff_size {E : Extern} {L : ExternLaws E}
      (coeffs : list float) (d : interval) (prune : bool) (vscale : float) :
  coeffs <> [] ->
  exists f,
    from_chebcoeff coeffs d prune vscale = Ok f
    /\ domain f = d /\ _vscale f = vscale
    /\ (1 <= size f <= length coeffs)%nat
    /\ (prune = false -> size f = length coeffs).
Proof.
  intros Hne.
  destruct (@from_chebcoeff_ok E L coeffs d prune vscale Hne)
    as (f & Hf & _ & Hd & Hs & Hsz & _).
  exists f. repeat split; auto.
  - rewrite Hsz. pose proof (pruned_coeffs_nonempty prune vscale Hne) as H.
    destruct (pruned_coeffs coeffs prune vscale); [congruence | simpl; lia].
  - rewrite Hsz. unfold pruned_coeffs. destruct prune; [|lia].
    rewrite length_firstn. lia.
  - intros ->. exact Hsz.
Qed.

(** X6. [from_chebcoeff] raises [IndexError] on an empty coefficient array;
    on any other it returns a Fun on the given domain with the given
    [vscale], with at least one node and at most one node per coefficient
    (exactly one per coefficient without pruning). *)
Theorem from_chebcoeff_total {E : Extern} {L : ExternLaws E}
        (coeffs : list float) (d : interval) (prune : bool) (vscale : float) :
  (coeffs = [] -> from_chebcoeff coeffs d prune vscale = Raise IndexError)
  /\ (coeffs <> [] ->
      exists f,
        from_chebcoeff coeffs d prune vscale = Ok f
        /\ domain f = d /\ _vscale f = vscale
        /\ (1 <= size f <= length coeffs)%nat
        /\ (prune = false -> size f = length coeffs)).
Proof.
  split.
  - intros ->. destruct prune; reflexivity.
  - apply from_chebcoeff_size.
Qed.

Lemma from_chebcoeff_total_witness :
  [1; 0x1p-60] <> []
  /\ exists f,
       from_chebcoeff (E := Reference.extern) [1; 0x1p-60] (0, 2) true 1 = Ok f
       /\ domain f = (0, 2) /\ _vscale f = 1
       /\ (1 <= size f)%nat /\ (size f <= 2)%nat.
Proof.
  split; [discriminate|].
  destruct (@from_chebcoeff_total Reference.extern reference_laws
              [1; 0x1p-60] (0, 2) true 1) as [_ H].
  destruct H as (f & Hf & Hd & Hs & [Hlo Hhi] & _); [discriminate|].
  exists f. auto.
Defined.

(** ** The adaptive sampler *)

Section DichotomyResult.

Context {E : Extern} {L : ExternLaws E}.

Variable f : float -> float.

Lemma dichotomy_loop_result (rnc : bool) (count k : nat) (prev : option attempt)
      (c : list float) :
  dichotomy_loop f k count prev rnc = Ok c ->
  (exists i, (i < count)%nat /\ c = coeffs_at f (k + i))
  \/ (exists a, prev = Some a /\ c = att_coeffs a).
Proof.
  revert k prev. induction count as [|count IH]; intros k prev; cbn [dichotomy_loop].
  - destruct prev as [a|]; [|discriminate].
    destruct rnc; [discriminate|]. intros [= <-]. right. eauto.
  - destruct (@dichotomy_step_ok E L f k) as (m & _ & Hstep & _).
    rewrite Hstep. cbn [bind].
    destruct (within_bound _).
    + intros [= <-]. left. exists 0%nat. rewrite Nat.add_0_r. split; [lia | reflexivity].
    + intros H. left. destruct (IH _ _ H) as [(i & Hi & Hc)|(a & Ha & Hc)].
      * exists (S i). split; [lia|]. now replace (k + S i)%nat with (S k + i)%nat by lia.
      * injection Ha as <-. exists 0%nat. rewrite Nat.add_0_r. split; [lia | exact Hc].
Qed.

Lemma dichotomy_loop_returns (count k : nat) (prev : option attempt) :
  (0 < count)%nat \/ prev <> None ->
  exists c, dichotomy_loop f k count prev false = Ok c.
Proof.
  revert k prev. induction count as [|count IH]; intros k prev H; cbn [dichotomy_loop].
  - destruct prev as [a|]; [eauto|]. destruct H; [lia | congruence].
  - destruct (@dichotomy_step_ok E L f k) as (m & _ & Hstep & _).
    rewrite Hstep. cbn [bind].
    destruct (within_bound _); [eauto|].
    apply IH. right. discriminate.
Qed.

End DichotomyResult.

(** X7. Whatever [dichotomy] returns is the fit of one [k] of its range, so
    it has [2^k + 1] coefficients for some [kmin <= k < kmax]; when
    convergence is not required and the range is not empty it always
    returns; with an empty range it fails on the unbound loop variables. *)
Theorem dichotomy_result {E : Extern} {L : ExternLaws E} (f : float -> float)
        (kmin kmax : nat) (rnc : bool) :
  (forall c, dichotomy f kmin kmax rnc = Ok c ->
     exists k, (kmin <= k < kmax)%nat /\ c = coeffs_at f k
               /\ length c = (2 ^ k + 1)%nat)
  /\ ((kmin < kmax)%nat -> exists c, dichotomy f kmin kmax false = Ok c)
  /\ ((kmax <= kmin)%nat -> dichotomy f kmin kmax rnc = Raise UnboundLocalError).
Proof.
  unfold dichotomy. split; [|split].
  - intros c Hc.
    destruct (@dichotomy_loop_result E L f rnc _ _ _ _ Hc) as [(i & Hi & ->)|(a & Ha & _)];
      [|discriminate].
    exists (kmin + i)%nat. split; [lia|]. split; [reflexivity|].
    apply (@coeffs_at_ok E L f).
  - intros Hk. apply (@dichotomy_loop_returns E L f). left. lia.
  - intros Hk. replace (kmax - kmin)%nat with 0%nat by lia. reflexivity.
Qed.

Lemma dichotomy_result_witness :
  (exists c, dichotomy (E := Reference.extern) (fun x => x * x) 0 2 false = Ok c
             /\ length c = 3%nat)
  /\ dichotomy (E := Reference.extern) (fun x => x * x) 3 3 true
     = Raise UnboundLocalError.
Proof.
  destruct (@dichotomy_result Reference.extern reference_laws (fun x => x * x) 0 2 false)
    as (Hres & Hret & _).
  destruct (@dichotomy_result Reference.extern reference_laws (fun x => x * x) 3 3 true)
    as (_ & _ & Hempty).
  split; [|apply Hempty; lia].
  destruct Hret as (c & Hc); [lia|].
  exists c. split; [exact Hc|].
  vm_compute in Hc. injection Hc as <-. reflexivity.
Defined.

(** X8. With a hint [N >= 1], [from_function] makes one pass of the
    dichotomy, at [k = floor(log2 N) + 1], and accepts its fit whether or
    not the tail is negligible: it always returns a Fun on the given domain,
    with at most [2^k + 1] nodes. *)
Theorem from_function_with_hint {E : Extern} {L : ExternLaws E}
        (f : float -> float) (d : interval) (N : nat) :
  (1 <= N)%nat ->
  let k := (Nat.log2 N + 1)%nat in
  let g := fun t => f (0.5 * (snd d - fst d) * t + 0.5 * (fst d + snd d)) in
  from_function f d (Some N) = from_chebcoeff (coeffs_at g k) d true 1
  /\ exists h,
       from_function f d (Some N) = Ok h
       /\ domain h = d
       /\ (1 <= size h <= 2 ^ k + 1)%nat.
Proof.
  intros HN k g.
  assert (Hd : dichotomy g k (k + 1) false = Ok (coeffs_at g k)).
  { unfold dichotomy. replace (k + 1 - k)%nat with 1%nat by lia.
    cbn [dichotomy_loop].
    destruct (@dichotomy_step_ok E L g k) as (m & _ & Hstep & _).
    rewrite Hstep. cbn [bind]. now destruct (within_bound _). }
  assert (Heq : from_function f d (Some N) = from_chebcoeff (coeffs_at g k) d true 1).
  { unfold from_function. destruct d as [a b]. cbn [fst snd] in *.
    destruct (Nat.eqb_spec N 0); [lia|].
    fold k. fold g. rewrite Hd. reflexivity. }
  split; [exact Heq|].
  destruct (@coeffs_at_ok E L g k) as [_ Hl].
  destruct (@from_chebcoeff_size E L (coeffs_at g k) d true 1)
    as (h & Hh & Hdom & _ & Hsz & _).
  { intros H0. rewrite H0 in Hl. simpl in Hl. lia. }
  exists h. rewrite Heq. rewrite Hl in Hsz. auto.
Qed.

Lemma from_function_with_hint_witness :
  (1 <= 3)%nat
  /\ exists h : Fun,
       from_function (E := Reference.extern) (fun x => x * x) (0, 2) (Some 3%nat) = Ok h
       /\ domain h = (0, 2)
       /\ (1 <= size h <= 2 ^ (Nat.log2 3 + 1) + 1)%nat.
Proof.
  split; [lia|].
  destruct (@from_function_with_hint Reference.extern reference_laws
              (fun x => x * x) (0, 2) 3) as (_ & H); [lia|].
  exact H.
Defined.

(** ** Arithmetic with a scalar, scalar products and the dispatching
    constructor *)

(** X9. Adding a scalar [v] to a Fun adds [v] to the first Chebyshev
    coefficient and leaves the others, then rebuilds the Fun at the scale
    [max(vscale, |v|)]; the one way it can fail is a domain with a NaN
    endpoint, which does not compare equal to itself and raises
    [DomainMismatch]. *)
Theorem add_scalar {E : Extern} {L : ExternLaws E} (A : Fun) (v : float) :
  constructed A ->
  (same_domain A A = true ->
   exists cA h,
     chebyshev_coefficients A = Ok cA
     /\ __add__ A (Scalar v)
        = from_chebcoeff (Np.map2 add cA (Spec.pad [v] (length cA)))
                         (domain A) true (Np.maximum (_vscale A) (abs v))
     /\ __add__ A (Scalar v) = Ok h
     /\ domain h = domain A)
  /\ (same_domain A A = false ->
      __add__ A (Scalar v) = Raise (DomainMismatch (domain A) (domain A))).
Proof.
  intros HA.
  destruct (@init_ok E [v] (domain A) None) as (o & Ho & Hov & Hod & Hon & _ & _ & _ & Hos);
    [discriminate|].
  cbn [map Np.max fold_left] in Hos. injection Hos as Hos.
  assert (Hsame : same_domain A o = same_domain A A)
    by (apply same_domain_domains; [reflexivity | exact Hod]).
  split.
  - intros Hdom.
    destruct (chebyshev_coefficients_ok HA) as (cA & HcA & Hl).
    assert (Hpos : (1 <= size A)%nat).
    { destruct (constructed_inv HA) as (Hne & Hsz & _). rewrite Hsz.
      destruct (_values A); [congruence | simpl; lia]. }
    assert (Hadd : __add__ A (Scalar v)
                   = from_chebcoeff (Np.map2 add cA (Spec.pad [v] (length cA)))
                                    (domain A) true (Np.maximum (_vscale A) (abs v))).
    { unfold __add__, cast_scalar. rewrite Ho. cbn [bind].
      rewrite Hsame, Hdom. cbn [negb].
      assert (Hsz : size o = 1%nat) by exact Hon.
      rewrite Hsz.
      destruct (Z.ltb_spec 0 (Z.of_nat 1 - Z.of_nat (size A))); [lia|].
      cbn [negb].
      unfold chebyshev_coefficients at 1. unfold values. rewrite Hov.
      cbn [chebpolyfit length Nat.eqb bind].
      rewrite HcA. cbn [bind].
      rewrite set_prefix_pad by (simpl; lia). cbn [bind Np.max fold_left].
      now rewrite <- Hos. }
    destruct (@from_chebcoeff_ok E L (Np.map2 add cA (Spec.pad [v] (length cA)))
                (domain A) true (Np.maximum (_vscale A) (abs v)))
      as (h & Hh & _ & Hd & _).
    { intros H0. apply (f_equal (@length float)) in H0.
      rewrite map2_length in H0. unfold Spec.pad in H0.
      rewrite length_app in H0. simpl in H0. lia. }
    exists cA, h. rewrite Hadd. auto.
  - intros Hdom. unfold __add__, cast_scalar. rewrite Ho. cbn [bind].
    rewrite Hsame, Hdom. cbn [negb]. unfold domain. now rewrite Hod.
Qed.

Lemma add_scalar_witness :
  exists A,
    init (E := Reference.extern) [1; 2] (-1, 1) None = Ok A
    /\ same_domain A A = true
    /\ exists h, __add__ (E := Reference.extern) A (Scalar 5) = Ok h
                 /\ domain h = (-1, 1).
Proof.
  eexists. split; [vm_compute; reflexivity|]. split; [reflexivity|].
  match goal with
  | |- exists h, __add__ ?A _ = _ /\ _ =>
      destruct (@add_scalar Reference.extern reference_laws A 5) as [H _];
      [exists [1; 2], (-1, 1), None; vm_compute; reflexivity|]
  end.
  destruct (H eq_refl) as (cA & h & _ & _ & Hh & Hd).
  exists h. split; [exact Hh | rewrite Hd; reflexivity].
Defined.

(** X10. The scalar product of two Funs on different domains raises
    [DomainMismatch]: the product is formed first, and no quadrature is
    attempted. *)
Theorem dot_domain_mismatch {E : Extern} (np_sum : list float -> float)
        (f g : Fun) :
  same_domain f g = false ->
  dot np_sum f g = Raise (DomainMismatch (domain f) (domain g))
  /\ forall x, dot np_sum f g <> Ok x.
Proof.
  intros H. unfold dot, __mul__.
  rewrite (add_operator_mismatch mul f g H). cbn [bind].
  split; [reflexivity | discriminate].
Qed.

Lemma dot_domain_mismatch_witness :
  exists f g,
    init (E := Reference.extern) [1; 2] (-1, 1) None = Ok f
    /\ init (E := Reference.extern) [3] (0, 1) None = Ok g
    /\ same_domain f g = false
    /\ dot (E := Reference.extern) (fun l => fold_left add l 0) f g
       = Raise (DomainMismatch (-1, 1) (0, 1)).
Proof.
  eexists. eexists.
  split; [vm_compute; reflexivity|].
  split; [vm_compute; reflexivity|].
  split; [reflexivity|].
  apply (@dot_domain_mismatch Reference.extern). reflexivity.
Defined.

(** X11. The constructor [chebfun] looks at [chebcoeff] first, whatever [f]
    is; given a Fun it copies the Fun and ignores the [domain] argument;
    given nothing, or an object of no recognised kind, it raises
    [TypeError], while an empty iterable reaches the class constructor and
    raises [ValueError]. *)
Theorem chebfun_dispatch {E : Extern} (d : interval) (N : option nat) :
  (forall f c, chebfun f d N (Some c) = Built (from_chebcoeff c d true 1))
  /\ (forall g, constructed g ->
        exists g', chebfun (InFun g) d N None = Built (Ok g')
                   /\ values g' = values g /\ domain g' = domain g)
  /\ chebfun InNone d N None = TypeError
  /\ chebfun InOther d N None = TypeError
  /\ chebfun (InIterable []) d N None = Built (Raise (ValueError []))
  /\ (forall c, chebfun (InScalar c) d N None = chebfun (InIterable [c]) d N None).
Proof.
  split; [reflexivity|]. split; [|repeat split].
  intros g Hg. destruct (constructed_inv Hg) as (Hne & _ & _).
  destruct (@init_ok E (_values g) (_domain g) None Hne) as (g' & Hg' & Hv & Hd & _).
  exists g'. cbn [chebfun]. unfold from_fun, values, domain. rewrite Hg'. auto.
Qed.

(** ** Differentiation *)

Lemma getitem_in_range {A} (l : list A) (j : nat) (d : A) :
  (j < length l)%nat -> Np.getitem l (Z.of_nat j) d = Ok (nth j l d).
Proof. intros H. unfold Np.getitem. now rewrite index_in_range. Qed.

Lemma setitem_in_range {A} (l : list A) (j : nat) (v : A) :
  (j < length l)%nat ->
  Np.setitem l (Z.of_nat j) v = Ok (Np.update (fun _ => v) j l).
Proof. intros H. unfold Np.setitem. now rewrite index_in_range. Qed.

Lemma nth_map2 {A B C} (f : A -> B -> C) (l : list A) (m : list B) (i : nat)
      (dA : A) (dB : B) (dC : C) :
  (i < length l)%nat -> (i < length m)%nat ->
  nth i (Np.map2 f l m) dC = f (nth i l dA) (nth i m dB).
Proof.
  revert m i. induction l as [|x l IH]; intros [|y m] [|i] Hl Hm;
    simpl in *; try lia; auto.
  apply IH; lia.
Qed.

Lemma scaled_nth (A : list float) (i : nat) :
  (i < length A)%nat ->
  nth i (Np.map2 (fun a k => a * 2 * float_of_nat k) A (seq 0 (length A))) 0
  = scaled A i.
Proof.
  intros H. rewrite (nth_map2 _ _ _ 0 0%nat) by (rewrite ?length_seq; lia).
  unfold scaled. now rewrite seq_nth by lia.
Qed.

(** One pass of the loop fills the entries [k] and [k - 1] from the two
    entries above each and leaves the others. *)
Lemma differentiator_pass_spec (m : nat) (SA DA : list float) (j : nat) :
  length SA = m -> length DA = m -> (2 * j + 4 <= m)%nat ->
  exists DA',
    differentiator_pass m SA DA j = Ok DA'
    /\ length DA' = m
    /\ nth (m - 3 - 2 * j) DA' 0
       = nth (m - 3 - 2 * j + 1) SA 0 + nth (m - 3 - 2 * j + 2) DA 0
    /\ nth (m - 3 - 2 * j - 1) DA' 0
       = nth (m - 3 - 2 * j) SA 0 + nth (m - 3 - 2 * j + 1) DA 0
    /\ forall i, i <> (m - 3 - 2 * j)%nat -> i <> (m - 3 - 2 * j - 1)%nat ->
                 nth i DA' 0 = nth i DA 0.
Proof.
  intros HSA HDA Hj. unfold differentiator_pass. cbv zeta.
  set (k := (m - 3 - 2 * j)%nat).
  replace (Z.of_nat m - 3 - 2 * Z.of_nat j)%Z with (Z.of_nat k) by lia.
  replace (Z.of_nat k + 1)%Z with (Z.of_nat (k + 1)) by lia.
  replace (Z.of_nat k + 2)%Z with (Z.of_nat (k + 2)) by lia.
  replace (Z.of_nat k - 1)%Z with (Z.of_nat (k - 1)) by lia.
  rewrite !getitem_in_range by lia. cbn [bind].
  rewrite setitem_in_range by lia. cbn [bind].
  rewrite !getitem_in_range by (rewrite ?update_length; lia). cbn [bind].
  rewrite setitem_in_range by (rewrite update_length; lia).
  eexists. split; [reflexivity|].
  rewrite !update_length. split; [exact HDA|].
  split; [|split].
  - rewrite nth_update by (rewrite update_length; lia).
    destruct (Nat.eqb_spec k (k - 1)); [lia|].
    rewrite nth_update by lia. now rewrite Nat.eqb_refl.
  - rewrite nth_update by (rewrite update_length; lia).
    rewrite Nat.eqb_refl. rewrite nth_update by lia.
    destruct (Nat.eqb_spec (k + 1) k); [lia | reflexivity].
  - intros i Hk Hk1.
    rewrite nth_update by (rewrite update_length; lia).
    destruct (Nat.eqb_spec i (k - 1)); [lia|].
    rewrite nth_update by lia.
    destruct (Nat.eqb_spec i k); [lia | reflexivity].
Qed.

(** After the passes [j0 .. j0 + count - 1] the recurrence holds from entry
    [m - 2 - 2 (j0 + count)] upwards. *)
Lemma differentiator_loop_spec (A SA : list float) (count : nat) :
  forall (j0 : nat) (DA : list float),
    length SA = length A ->
    (forall i, (i < length A)%nat -> nth i SA 0 = scaled A i) ->
    length DA = length A ->
    (2 * (j0 + count) + 2 <= length A)%nat ->
    nth (length A - 1) DA 0 = 0 ->
    nth (length A - 2) DA 0 = scaled A (length A - 1) ->
    (forall i, (length A - 2 - 2 * j0 <= i <= length A - 3)%nat ->
               nth i DA 0 = scaled A (i + 1) + nth (i + 2) DA 0) ->
    exists DA',
      fold_left (fun acc j => DA <- acc ;; differentiator_pass (length A) SA DA j)
                (seq j0 count) (Ok DA) = Ok DA'
      /\ length DA' = length A
      /\ nth (length A - 1) DA' 0 = 0
      /\ nth (length A - 2) DA' 0 = scaled A (length A - 1)
      /\ forall i, (length A - 2 - 2 * (j0 + count) <= i <= length A - 3)%nat ->
                   nth i DA' 0 = scaled A (i + 1) + nth (i + 2) DA' 0.
Proof.
  induction count as [|count IH]; intros j0 DA HSA HSAn HDA Hm Hlast Hprev Hrec.
  - exists DA. rewrite Nat.add_0_r. cbn [seq fold_left]. auto.
  - cbn [seq fold_left bind].
    destruct (@differentiator_pass_spec (length A) SA DA j0 HSA HDA)
      as (DA1 & Hpass & Hl1 & Hk & Hk1 & Hother); [lia|].
    rewrite Hpass.
    set (k := (length A - 3 - 2 * j0)%nat) in *.
    destruct (IH (S j0) DA1) as (DA' & Hfold & Hl' & Hlast' & Hprev' & Hrec'); auto.
    + lia.
    + rewrite Hother by lia. exact Hlast.
    + rewrite Hother by lia. exact Hprev.
    + intros i Hi.
      destruct (Nat.eq_dec i k) as [->|Hik];
        [|destruct (Nat.eq_dec i (k - 1)) as [->|Hik1]].
      * rewrite Hk, (Hother (k + 2)%nat) by lia.
        now rewrite HSAn by lia.
      * rewrite Hk1, (Hother (k - 1 + 2)%nat) by lia.
        replace (k - 1 + 2)%nat with (k + 1)%nat by lia.
        replace (k - 1 + 1)%nat with k by lia.
        now rewrite HSAn by lia.
      * rewrite (Hother i), (Hother (i + 2)%nat) by lia.
        apply Hrec. lia.
    + exists DA'. replace (j0 + S count)%nat with (S j0 + count)%nat by lia. auto.
Qed.

(** The coefficients of the derivative of a series with at least three
    terms. *)
Lemma differentiator_long (A : list float) :
  (3 <= length A)%nat ->
  exists DA,
    differentiator A = Ok DA
    /\ length DA = length A
    /\ nth (length A - 1) DA 0 = 0
    /\ nth (length A - 2) DA 0 = scaled A (length A - 1)
    /\ (forall i, (1 <= i <= length A - 3)%nat ->
          nth i DA 0 = scaled A (i + 1) + nth (i + 2) DA 0)
    /\ nth 0 DA 0 = (scaled A 1 + nth 2 DA 0) * 0.5.
Proof.
  intros Hm. unfold differentiator.
  set (m := length A) in *.
  set (SA := Np.map2 _ A (seq 0 m)).
  assert (HSA : length SA = m)
    by (unfold SA; rewrite map2_length, length_seq; lia).
  assert (HSAn : forall i, (i < m)%nat -> nth i SA 0 = scaled A i)
    by (intros i Hi; apply scaled_nth; exact Hi).
  destruct (Nat.eqb_spec m 1); [lia|]. destruct (Nat.eqb_spec m 2); [lia|].
  assert (Hz : length (Np.zeros m) = m) by (unfold Np.zeros; apply repeat_length).
  assert (Hsrc : NpSlice.slice SA (m - 2) m
                 = [scaled A (m - 2); scaled A (m - 1)]).
  { unfold NpSlice.slice. replace (m - (m - 2))%nat with 2%nat by lia.
    assert (Hsk : length (skipn (m - 2) SA) = 2%nat) by (rewrite length_skipn; lia).
    destruct (skipn (m - 2) SA) as [|x [|y [|z t]]] eqn:Hskip; simpl in Hsk; try lia.
    cbn [firstn].
    pose proof (nth_skipn (m - 2) SA 0%nat 0) as H0.
    pose proof (nth_skipn (m - 2) SA 1%nat 0) as H1.
    rewrite Hskip in H0, H1. cbn [nth] in H0, H1.
    rewrite H0, H1, !HSAn by lia.
    now replace (m - 2 + 0)%nat with (m - 2)%nat by lia;
      replace (m - 2 + 1)%nat with (m - 1)%nat by lia. }
  unfold NpSlice.set_slice. rewrite Hz, Hsrc.
  replace (Nat.min (m - 3) m) with (m - 3)%nat by lia.
  replace (Nat.max (m - 3) (Nat.min (m - 1) m)) with (m - 1)%nat by lia.
  cbn [length]. replace (m - 1 - (m - 3))%nat with 2%nat by lia.
  cbn [Nat.eqb bind].
  set (DA0 := firstn (m - 3) (Np.zeros m) ++ _).
  assert (HDA0 : length DA0 = m).
  { unfold DA0. rewrite !length_app, length_firstn, length_skipn, Hz.
    cbn [length]. lia. }
  assert (Hlast0 : nth (m - 1) DA0 0 = 0).
  { unfold DA0. rewrite app_nth2 by (rewrite length_firstn, Hz; lia).
    rewrite length_firstn, Hz.
    replace (m - 1 - Nat.min (m - 3) m)%nat with 2%nat by lia.
    cbn [app nth]. rewrite skipn_zeros.
    replace (m - (m - 1))%nat with 1%nat by lia. reflexivity. }
  assert (Hprev0 : nth (m - 2) DA0 0 = scaled A (m - 1)).
  { unfold DA0. rewrite app_nth2 by (rewrite length_firstn, Hz; lia).
    rewrite length_firstn, Hz.
    replace (m - 2 - Nat.min (m - 3) m)%nat with 1%nat by lia.
    reflexivity. }
  pose proof (Nat.div_mod_eq m 2) as Hdiv.
  pose proof (Nat.mod_upper_bound m 2) as Hmod.
  destruct (@differentiator_loop_spec A SA (m / 2 - 1) 0 DA0)
    as (DA1 & Hfold & Hl1 & Hlast1 & Hprev1 & Hrec1); auto.
  - fold m. lia.
  - fold m. intros i Hi. lia.
  - fold m in Hfold, Hl1, Hlast1, Hprev1, Hrec1.
    rewrite Hfold. cbn [bind].
    change 1%Z with (Z.of_nat 1). change 2%Z with (Z.of_nat 2).
    change 0%Z with (Z.of_nat 0).
    rewrite !getitem_in_range by lia. cbn [bind].
    rewrite setitem_in_range by lia.
    eexists. split; [reflexivity|].
    rewrite update_length. split; [exact Hl1|].
    rewrite !nth_update by lia.
    destruct (Nat.eqb_spec (m - 1) 0); [lia|].
    destruct (Nat.eqb_spec (m - 2) 0); [lia|].
    split; [exact Hlast1|]. split; [exact Hprev1|]. split.
    + intros i Hi. rewrite !nth_update by lia.
      destruct (Nat.eqb_spec i 0); [lia|].
      destruct (Nat.eqb_spec (i + 2) 0); [lia|].
      apply Hrec1. lia.
    + cbn [Nat.eqb]. now rewrite HSAn by lia.
Qed.

(** X12. [differentiator] computes the Chebyshev derivative recurrence.  For
    at least three coefficients the result has as many entries as the input,
    a zero last entry, [DA[m - 2] = SA[m - 1]], [DA[k] = SA[k + 1] + DA[k + 2]]
    for every [k] from 1 to [m - 3], and [DA[0] = (SA[1] + DA[2]) / 2], where
    [SA[k] = 2 k A[k]].  One coefficient gives [[0]], two give [[A[1]]], and
    none raises [IndexError]. *)
Theorem differentiator_recurrence (A : list float) :
  (length A = 0%nat -> differentiator A = Raise IndexError)
  /\ (length A = 1%nat -> differentiator A = Ok [0])
  /\ (length A = 2%nat -> differentiator A = Ok [nth 1 A 0])
  /\ ((3 <= length A)%nat ->
      exists DA,
        differentiator A = Ok DA
        /\ length DA = length A
        /\ nth (length A - 1) DA 0 = 0
        /\ nth (length A - 2) DA 0 = scaled A (length A - 1)
        /\ (forall i, (1 <= i <= length A - 3)%nat ->
              nth i DA 0 = scaled A (i + 1) + nth (i + 2) DA 0)
        /\ nth 0 DA 0 = (scaled A 1 + nth 2 DA 0) * 0.5).
Proof.
  split; [|split; [|split]].
  - intros H. destruct A; [reflexivity | discriminate].
  - intros H. destruct A as [|a [|b t]]; try discriminate. reflexivity.
  - intros H. destruct A as [|a [|b [|c t]]]; try discriminate. reflexivity.
  - apply differentiator_long.
Qed.

Lemma differentiator_nonempty (A : list float) :
  A <> [] ->
  exists DA, differentiator A = Ok DA /\ (1 <= length DA <= length A)%nat.
Proof.
  intros Hne.
  destruct A as [|a [|b [|c t]]]; [congruence | | |].
  - exists [0]. split; [reflexivity | simpl; lia].
  - exists [b]. split; [reflexivity | simpl; lia].
  - destruct (@differentiator_long (a :: b :: c :: t)) as (DA & HDA & Hl & _);
      [simpl; lia|].
    exists DA. split; [exact HDA|]. rewrite Hl. simpl. lia.
Qed.

Lemma differentiator_iter_nonempty (n : nat) (A : list float) :
  A <> [] ->
  exists DA, differentiator_iter n A = Ok DA /\ (1 <= length DA <= length A)%nat.
Proof.
  revert A. induction n as [|n IH]; intros A Hne; cbn [differentiator_iter].
  - exists A. split; [reflexivity|]. destruct A; [congruence | simpl; lia].
  - destruct (differentiator_nonempty Hne) as (DA & HDA & Hl).
    rewrite HDA. cbn [bind].
    destruct (IH DA) as (DA' & HDA' & Hl').
    { intros H0. rewrite H0 in Hl. simpl in Hl. lia. }
    exists DA'. split; [exact HDA' | lia].
Qed.

(** X13. [differentiate] never raises on a Fun: for every order [n] it
    returns a Fun on the same domain, with at least one node and no more
    nodes than the Fun it differentiates. *)
Theorem differentiate_total {E : Extern} {L : ExternLaws E}
        (power : float -> nat -> float) (n : nat) (f : Fun) :
  constructed f ->
  exists g,
    differentiate power n f = Ok g
    /\ domain g = domain f
    /\ (1 <= size g <= size f)%nat.
Proof.
  intros Hf.
  destruct (chebyshev_coefficients_ok Hf) as (ak & Hak & Hl).
  assert (Hne : ak <> []).
  { destruct (constructed_inv Hf) as (Hv & Hsz & _).
    intros H0. rewrite H0 in Hl. simpl in Hl. rewrite Hsz in Hl.
    destruct (_values f); [congruence | discriminate]. }
  destruct (differentiator_iter_nonempty n Hne) as (DA & HDA & HlD).
  unfold differentiate. rewrite Hak. cbn [bind].
  destruct (domain f) as [a_ b_] eqn:Hd.
  rewrite HDA. cbn [bind].
  destruct (@from_chebcoeff_size E L
              (map (fun c => power (2 / (b_ - a_)) n * c) DA) (a_, b_) true 1)
    as (g & Hg & Hdg & _ & Hsz & _).
  { intros H0. apply map_eq_nil in H0. rewrite H0 in HlD. simpl in HlD. lia. }
  exists g. rewrite length_map in Hsz. repeat split; auto; lia.
Qed.

Lemma differentiate_total_witness :
  exists f,
    basis (E := Reference.extern) 2 = Ok f
    /\ exists g,
         differentiate (E := Reference.extern)
           (fun x n => Nat.iter n (mul x) 1) 1 f = Ok g
         /\ values g = [4; -4]
         /\ domain g = (-1, 1).
Proof.
  eexists. split; [vm_compute; reflexivity|].
  match goal with
  | |- exists g, differentiate ?pw 1 ?f = _ /\ _ =>
      destruct (@differentiate_total Reference.extern reference_laws pw 1%nat f)
        as (g & Hg & Hd & _);
      [exists [1; -1; 1], (-1, 1), None; vm_compute; reflexivity|]
  end.
  exists g. split; [exact Hg|].
  vm_compute in Hg. injection Hg as <-. split; reflexivity.
Defined.

(** ** The colleague matrix *)




Lemma nth_map_default {A B} (F : A -> B) (l : list A) (i : nat) (dA : A) (dB : B) :
  (i < length l)%nat -> nth i (map F l) dB = F (nth i l dA).
Proof.
  intros H. rewrite (nth_indep _ dB (F dA)) by (rewrite length_map; lia).
  apply map_nth.
Qed.





(** ** Additive operators on a common domain *)

Section Additive.

Context {E : Extern} {L : ExternLaws E}.

Lemma add_returns (f g : Fun) :
  constructed f -> constructed g -> same_domain f g = true ->
  exists h, __add__ f (AFun g) = Ok h /\ domain h = domain f /\ constructed h.
Proof.
  intros Hf Hg H.
  destruct (chebyshev_coefficients_ok Hf) as (cf & Hcf & Hlf).
  destruct (chebyshev_coefficients_ok Hg) as (cg & Hcg & Hlg).
  assert (Hpos : (0 < length cf)%nat).
  { destruct (constructed_inv Hf) as (Hne & Hsz & _).
    rewrite Hlf, Hsz. destruct (_values f); [congruence | simpl; lia]. }
  unfold __add__, cast_scalar. rewrite H. cbn [negb].
  rewrite <- Hlf, <- Hlg.
  assert (Hbuild : forall big small : list float,
             (0 < length big)%nat -> (length small <= length big)%nat ->
             exists h,
               (padded <- Np.set_prefix (Np.zeros (length big)) small ;;
                let chebsum := Np.map2 add big padded in
                new_vscale <- Np.max [_vscale f; _vscale g] ;;
                from_chebcoeff chebsum (domain f) true new_vscale) = Ok h
               /\ domain h = domain f /\ constructed h).
  { intros big small Hb Hs. rewrite set_prefix_pad by exact Hs.
    cbn [bind Np.max fold_left].
    destruct (@from_chebcoeff_ok E L (Np.map2 add big (Spec.pad small (length big)))
                (domain f) true (Np.maximum (_vscale f) (_vscale g)))
      as (h & Hh & _ & Hd & _ & _ & Hc).
    { intros H0. apply (f_equal (@length float)) in H0.
      rewrite map2_length in H0. unfold Spec.pad, Np.zeros in H0.
      rewrite length_app, repeat_length in H0. simpl in H0. lia. }
    exists h. auto. }
  destruct (Z.ltb_spec 0 (Z.of_nat (length cg) - Z.of_nat (length cf))); cbn [negb].
  - rewrite Hcf, Hcg. cbn [bind]. apply Hbuild; lia.
  - rewrite Hcg, Hcf. cbn [bind]. apply Hbuild; lia.
Qed.

End Additive.

(** X15. Between two Funs on a common domain the additive operators never
    raise: [+], [-] and the reflected [-] return Funs on that domain, and
    [==] returns a boolean, true exactly when the values of the difference
    are all close to zero. *)
Theorem additive_operators_total {E : Extern} {L : ExternLaws E} (f g : Fun) :
  constructed f -> constructed g -> same_domain f g = true ->
  exists s d r,
    __add__ f (AFun g) = Ok s /\ domain s = domain f
    /\ __sub__ f (AFun g) = Ok d /\ domain d = domain f
    /\ __rsub__ f (AFun g) = Ok r /\ domain r = domain f
    /\ __eq__ f (AFun g) = Ok (negb (__nonzero__ d))
    /\ __neq__ f (AFun g) = Ok (__nonzero__ d).
Proof.
  intros Hf Hg H.
  destruct (add_returns Hf Hg H) as (s & Hs & Hsd & _).
  destruct (neg_ok Hg) as (ng & Hng & Hngd & _ & Hngc).
  destruct (@add_returns E L f ng Hf Hngc) as (d & Hd & Hdd & Hdc).
  { now rewrite (@same_domain_ext f g ng Hngd). }
  assert (Hsub : __sub__ f (AFun g) = Ok d).
  { unfold __sub__, cast_scalar. rewrite Hng. cbn [bind]. exact Hd. }
  destruct (neg_ok Hdc) as (r & Hr & Hrd & _).
  exists s, d, r. unfold __rsub__, __neq__, __eq__. rewrite Hsub. cbn [bind].
  rewrite Hr, negb_involutive. unfold domain in *. rewrite Hrd. auto 10.
Qed.

Lemma additive_operators_total_witness :
  exists f g,
    init (E := Reference.extern) [1; 2] (-1, 1) None = Ok f
    /\ init (E := Reference.extern) [3; 4; 5] (-1, 1) None = Ok g
    /\ same_domain f g = true
    /\ exists d, __sub__ (E := Reference.extern) f (AFun g) = Ok d
                 /\ __eq__ (E := Reference.extern) f (AFun g)
                    = Ok (negb (__nonzero__ d)).
Proof.
  eexists. eexists.
  split; [vm_compute; reflexivity|].
  split; [vm_compute; reflexivity|].
  split; [reflexivity|].
  match goal with
  | |- exists d, __sub__ ?f (AFun ?g) = _ /\ _ =>
      destruct (@additive_operators_total Reference.extern reference_laws f g)
        as (s & d & r & _ & _ & Hd & _ & _ & _ & He & _);
      [exists [1; 2], (-1, 1), None; vm_compute; reflexivity
      | exists [3; 4; 5], (-1, 1), None; vm_compute; reflexivity
      | reflexivity |]
  end.
  exists d. split; [exact Hd | exact He].
Defined.

(** ** The transforms and the quadrature *)

(** X16. On a non-empty array both transforms return an array of the same
    length; on a single entry they are the identity; [chebpolyval] raises
    [IndexError] on an empty array. *)
Theorem transforms_preserve_length {E : Extern} {L : ExternLaws E}
        (l : list float) :
  (l <> [] ->
   exists c v,
     chebpolyfit l = Ok c /\ length c = length l
     /\ chebpolyval l = Ok v /\ length v = length l)
  /\ (forall x, chebpolyfit [x] = Ok [x] /\ chebpolyval [x] = Ok [x])
  /\ chebpolyval [] = Raise IndexError.
Proof.
  split; [|split].
  - intros Hne.
    destruct (chebpolyfit_ok Hne) as (c & Hc & Hlc).
    destruct (chebpolyval_ok Hne) as (v & Hv & Hlv).
    exists c, v. auto.
  - intros x. split; reflexivity.
  - reflexivity.
Qed.

Lemma transforms_preserve_length_witness :
  [1; 2; 3] <> []
  /\ exists c v,
       chebpolyfit (E := Reference.extern) [1; 2; 3] = Ok c /\ length c = 3%nat
       /\ chebpolyval (E := Reference.extern) [1; 2; 3] = Ok v /\ length v = 3%nat.
Proof.
  split; [discriminate|].
  destruct (@transforms_preserve_length Reference.extern reference_laws [1; 2; 3])
    as (H & _).
  exact (H ltac:(discriminate)).
Defined.

Lemma every_other_nth {A} (l : list A) (j : nat) (d : A) :
  nth j (NpSlice.every_other l) d = nth (2 * j) l d.
Proof.
  enough (H : forall k (m : list A) i, (length m <= k)%nat ->
                nth i (NpSlice.every_other m) d = nth (2 * i) m d)
    by (apply (H (length l)); lia).
  induction k as [|k IH]; intros [|x [|y t]] i Hm; simpl in Hm; try lia;
    try (destruct i; reflexivity).
  - destruct i as [|i]; [reflexivity|].
    cbn [NpSlice.every_other]. destruct i; reflexivity.
  - destruct i as [|i]; [reflexivity|].
    cbn [NpSlice.every_other nth].
    replace (2 * S i)%nat with (S (S (2 * i))) by lia. cbn [nth].
    apply IH. lia.
Qed.

Lemma every_other_length {A} (l : list A) :
  length (NpSlice.every_other l) = ((length l + 1) / 2)%nat.
Proof.
  enough (H : forall k (m : list A), (length m <= k)%nat ->
                length (NpSlice.every_other m) = ((length m + 1) / 2)%nat)
    by (apply (H (length l)); lia).
  induction k as [|k IH]; intros [|x [|y t]] Hm; simpl in Hm; try lia;
    try reflexivity.
  cbn [NpSlice.every_other length]. rewrite IH by lia.
  replace (S (S (length t)) + 1)%nat with (length t + 1 + 1 * 2)%nat by lia.
  rewrite Nat.div_add by lia. lia.
Qed.

(** X17. [sum] is Clenshaw-Curtis quadrature on the coefficients: half the
    width of the domain times the sum of the even-indexed coefficients
    [c_(2j)], each weighted by [2 / (1 - (2j)^2)]; the odd-indexed
    coefficients are not read. *)
Theorem sum_clenshaw_curtis {E : Extern} {L : ExternLaws E}
        (np_sum : list float -> float) (f : Fun) :
  constructed f ->
  exists ak,
    chebyshev_coefficients f = Ok ak
    /\ length ak = size f
    /\ sum np_sum f
       = Ok (0.5 * (snd (domain f) - fst (domain f))
             * np_sum (map (fun j => 2 / (1 - float_of_nat ((2 * j) ^ 2))
                                     * nth (2 * j) ak 0)
                           (seq 0 ((size f + 1) / 2)))).
Proof.
  intros Hf.
  destruct (chebyshev_coefficients_ok Hf) as (ak & Hak & Hl).
  exists ak. split; [exact Hak|]. split; [exact Hl|].
  unfold sum. rewrite Hak. cbn [bind].
  destruct (domain f) as [a_ b_]. cbn [fst snd].
  do 3 f_equal. rewrite <- Hl.
  apply (nth_ext _ _ 0 0).
  - rewrite map2_length, !length_map, !length_seq, every_other_length. lia.
  - intros i Hi.
    rewrite map2_length, length_map, length_seq, every_other_length in Hi.
    rewrite (nth_map2 _ _ _ 0 0)
      by (rewrite ?length_map, ?length_seq, ?every_other_length; lia).
    rewrite every_other_nth.
    rewrite (nth_map_default _ _ 0%nat 0)
      by (rewrite length_seq, every_other_length; lia).
    rewrite (nth_map_default _ _ 0%nat 0) by (rewrite length_seq; lia).
    rewrite !seq_nth by (rewrite ?every_other_length; lia).
    reflexivity.
Qed.

Lemma sum_clenshaw_curtis_witness :
  exists f,
    basis (E := Reference.extern) 2 = Ok f
    /\ sum (E := Reference.extern) (fun l => fold_left add l 0) f
       = Ok (0.5 * (1 - -1) * (0 + 2 / (1 - 0) * 0 + 2 / (1 - 4) * 1)).
Proof.
  eexists. split; [vm_compute; reflexivity|].
  match goal with
  | |- sum ?s ?f = _ =>
      destruct (@sum_clenshaw_curtis Reference.extern reference_laws s f)
        as (ak & Hak & _ & Hs);
      [exists [1; -1; 1], (-1, 1), None; vm_compute; reflexivity|]
  end.
  rewrite Hs. vm_compute in Hak. injection Hak as <-.
  vm_compute. reflexivity.
Defined.
